(** * telestai-groomer: the consolidation loop

    A shallow embedding of the main loop of [telestai-groomer.py]
    (lines 78-180) and of the properties its specification states about it,
    followed by the start-up checks (lines 33-76) and further properties of
    the loop read off the code.

    Modelling choices.
    - [Decimal] values are the finite decimals of Python's [decimal] module.
      They are embedded in [Q]; [==] ([Qeq]) is Python's numeric [==], which
      also identifies [Decimal('10')] and [Decimal('10.0')].  Sums and
      differences are exact, which is what the [decimal] module computes as
      long as a result fits the context precision (28 significant digits);
      that covers every amount of the currency (8 fractional digits).
    - Python [int]s are [Z].
    - A [dict] is an association list in insertion order: assigning to an
      existing key keeps its position, a new key goes to the end.  That is
      the order [scripts.items()] and [out.keys()] iterate in.
    - The wallet behind [AuthServiceProxy] and the terminal are an abstract
      world [W] with one operation per RPC the loop calls ([WalletRPC]).
    - [print] appends an [event] to the process' output.
    - The two [while] loops take fuel: [while True] need not end, and the
      splitting loop does not end for some arguments. *)

From Stdlib Require Import QArith Qround Lqa Lia ZArith List ListSet String Bool.
Import ListNotations.

Local Open Scope string_scope.
Local Open Scope list_scope.
Local Open Scope Q_scope.

(** ** Decimals *)

Definition Decimal := Q.

(** [a < b] on decimals, as a boolean. *)
Definition Qltb (a b : Decimal) : bool := negb (Qle_bool b a).

(** Python's [min(a, b)]: the first argument unless the second is smaller. *)
Definition py_min (a b : Decimal) : Decimal := if Qltb b a then b else a.

Fixpoint Qsum (l : list Decimal) : Decimal :=
  match l with
  | [] => 0
  | x :: r => x + Qsum r
  end.

(** ** Python dictionaries with string keys *)

Section Dict.
Variable V : Type.

Definition dict := list (string * V).

Fixpoint dict_get (k : string) (d : dict) : option V :=
  match d with
  | [] => None
  | (k', v) :: r => if String.eqb k k' then Some v else dict_get k r
  end.

Definition dict_mem (k : string) (d : dict) : bool :=
  match dict_get k d with Some _ => true | None => false end.

(** [d[k] = v] *)
Fixpoint dict_set (k : string) (v : V) (d : dict) : dict :=
  match d with
  | [] => [(k, v)]
  | (k', v') :: r =>
      if String.eqb k k' then (k', v) :: r else (k', v') :: dict_set k v r
  end.

Definition dict_keys (d : dict) : list string := map fst d.
Definition dict_values (d : dict) : list V := map snd d.
End Dict.

Arguments dict_get {V} k d.
Arguments dict_mem {V} k d.
Arguments dict_set {V} k v d.
Arguments dict_keys {V} d.
Arguments dict_values {V} d.

(** ** Data *)

(** One entry of [listunspent]. *)
Record Coin := mkCoin {
  txid : string;
  vout : Z;
  scriptPubKey : string;
  amount : Decimal;
  confirmations : Z
}.

(** The [txout] dictionaries handed to [createrawtransaction]. *)
Record TxIn := mkTxIn { in_txid : string; in_vout : Z }.

(** The parsed command line. *)
Record Args := mkArgs {
  max_amt_input : Decimal;
  max_num_tx : Z;
  max_amt_per_output : Decimal;
  fee : Decimal;
  reuse : bool;
  address : option string;
  auto : bool
}.

(** The value stored per script: a 3-tuple. *)
Definition Group := (Z * Decimal * Z)%type.

Definition g0 (g : Group) : Z := fst (fst g).
Definition g1 (g : Group) : Decimal := snd (fst g).
Definition g2 (g : Group) : Z := snd g.

(** ** Grouping (lines 86-94) *)

Definition qualifies (args : Args) (coin : Coin) : bool :=
  Qltb (amount coin) (max_amt_input args)
  && Qle_bool (1 # 100) (amount coin)
  && (100 <? confirmations coin)%Z.

(** The body of [for coin in coins]. *)
Definition group_coin (args : Args) (scripts : dict Group) (coin : Coin)
  : dict Group :=
  let script := scriptPubKey coin in
  let scripts :=
    if dict_mem script scripts then scripts
    else dict_set script (0%Z, 0, 0%Z) scripts in
  match dict_get script scripts with
  | None => scripts
  | Some g =>
      if qualifies args coin
      then dict_set script ((g0 g + 1)%Z, g1 g + amount coin, (g0 g + 1)%Z) scripts
      else dict_set script (g0 g, g1 g + amount coin, (g0 g + 1)%Z) scripts
  end.

Definition group_coins (args : Args) (coins : list Coin) : dict Group :=
  fold_left (group_coin args) coins [].

(** The sum of a decimal read off every value of a dictionary. *)
Definition dict_sum {V : Type} (f : V -> Decimal) (d : dict V) : Decimal :=
  Qsum (map f (dict_values d)).

Definition total_amounts (scripts : dict Group) : Decimal := dict_sum g1 scripts.

(** ** Candidate selection (line 105) *)

(** [a > b] on the 3-tuples, as Python compares tuples: the first position
    where they differ (by [==]) decides. *)
Definition group_gt (a b : Group) : bool :=
  if negb (g0 a =? g0 b)%Z then (g0 b <? g0 a)%Z
  else if negb (Qeq_bool (g1 a) (g1 b)) then Qltb (g1 b) (g1 a)
  else (g2 b <? g2 a)%Z.

(** [max(items, key=operator.itemgetter(1))]: a later item replaces the
    current maximum only when its key is strictly greater. *)
Fixpoint max_from (best : string * Group) (items : list (string * Group))
  : string * Group :=
  match items with
  | [] => best
  | it :: rest =>
      if group_gt (snd it) (snd best) then max_from it rest
      else max_from best rest
  end.

(** [None] is the [ValueError] of [max] on an empty sequence. *)
Definition py_max (items : list (string * Group)) : option (string * Group) :=
  match items with
  | [] => None
  | it :: rest => Some (max_from it rest)
  end.

Definition most_overused (scripts : dict Group) : option string :=
  option_map fst (py_max scripts).

(** [a < b] on the 3-tuples, as a proposition. *)
Definition group_lt (a b : Group) : Prop :=
  (g0 a < g0 b)%Z
  \/ (g0 a = g0 b
      /\ (g1 a < g1 b \/ (g1 a == g1 b /\ (g2 a < g2 b)%Z))).

(** The selection as the specification words it: the greatest qualifying
    count alone decides, and among scripts tied on it the first-seen one is
    kept whatever the other two fields are. *)
Fixpoint greatest_count_from (best : string * Group)
  (items : list (string * Group)) : string * Group :=
  match items with
  | [] => best
  | it :: rest =>
      if (g0 (snd best) <? g0 (snd it))%Z then greatest_count_from it rest
      else greatest_count_from best rest
  end.

Definition first_seen_greatest_count (scripts : dict Group) : option string :=
  match scripts with
  | [] => None
  | it :: rest => Some (fst (greatest_count_from it rest))
  end.

(** ** Working set (lines 116-121) *)

(** [usescripts] is a Python [set]; it is kept as a duplicate-free list. *)
Definition use_script (scripts : dict Group) (usescripts : set string)
  (script : string) : set string :=
  match dict_get script scripts with
  | Some g =>
      if Qltb (g1 g) (1 # 10000) then set_add string_dec script usescripts
      else usescripts
  | None => usescripts
  end.

Definition working_set (scripts : dict Group) (most : string) : set string :=
  fold_left (use_script scripts) (dict_keys scripts) [most].

(** ** Input selection (lines 123-133) *)

Definition txin_of (coin : Coin) : TxIn := mkTxIn (txid coin) (vout coin).

Definition in_use (usescripts : set string) (coin : Coin) : bool :=
  set_mem string_dec (scriptPubKey coin) usescripts.

Fixpoint select_inputs (args : Args) (usescripts : set string)
  (coins : list Coin) (amt : Decimal) (txouts : list TxIn)
  : Decimal * list TxIn :=
  match coins with
  | [] => (amt, txouts)
  | coin :: rest =>
      if (max_num_tx args <=? Z.of_nat (List.length txouts))%Z
      then (amt, txouts)
      else if in_use usescripts coin
      then select_inputs args usescripts rest (amt + amount coin)
             (txouts ++ [txin_of coin])
      else select_inputs args usescripts rest amt txouts
  end.

(** The coins behind the selected inputs, for stating what [amt] sums: the
    first [max_num_tx] coins of the snapshot that pay a script of the
    working set ([select_inputs_selected] relates it to the loop). *)
Definition selected_coins (args : Args) (usescripts : set string)
  (coins : list Coin) : list Coin :=
  firstn (Z.to_nat (max_num_tx args)) (filter (in_use usescripts) coins).

(** ** The wallet and the terminal *)

Inductive result (A : Type) : Type :=
| Returns (a : A)
| Fails (msg : string).
Arguments Returns {A} a.
Arguments Fails {A} msg.

(** The calls the loop makes on [b], and [input].  Each takes the world and
    gives the answer, or the message of the exception it raises, and the
    world after the call. *)
Class WalletRPC (W : Type) : Type := {
  listunspent : Z -> Z -> W -> result (list Coin) * W;
  getnewaddress : string -> W -> result string * W;
  createrawtransaction : list TxIn -> dict Decimal -> W -> result string * W;
  signrawtransaction : string -> W -> result string * W;
  sendrawtransaction : string -> W -> result string * W;
  input : string -> W -> result string * W
}.

(** What the loop prints, one constructor per [print] statement. *)
Inductive event : Type :=
| PrintFetchError (e : string)
| PrintAlreadyClean
| PrintTransactionsSent (txs : list string)
| PrintCleaned
| PrintCreating (inputs : nat) (amt : Decimal)
| PrintScript (script : string) (txins : Z) (value : Decimal)
| PrintPaying (paid : Decimal) (fee : Decimal)
| PrintPayee (addr : string) (value : Decimal)
| Prompt (question : string)
| PrintBytes (bytes : nat) (fee : Decimal)
| PrintTransactionSent (txid : string)
| PrintTxError (e : string).

Inductive exn : Type :=
| NameError (name : string)
| KeyError (key : string)
| ValueError
| JSONRPCException (msg : string).

(** How a piece of the script ends: it falls through with a value, an
    exception nobody catches kills the process, [sys.exit()] ends it, or
    the fuel of the model ran out. *)
Inductive outcome (S A : Type) : Type :=
| Done (a : A) (s : S)
| Raised (e : exn) (s : S)
| Exited (s : S)
| OutOfFuel.
Arguments Done {S A} a s.
Arguments Raised {S A} e s.
Arguments Exited {S A} s.
Arguments OutOfFuel {S A}.

(** What the splitting loop leaves behind.  [out] is the dictionary of the
    script; [payments] and [iterations] are ghost: the executions of line
    154, in order, and the number of times the loop body ran. *)
Record Split : Type := mkSplit {
  out : dict Decimal;
  payments : list (string * Decimal);
  iterations : nat
}.

Definition chunk_sequence (r : Split) : list Decimal := map snd (payments r).

(** Lines 143-145: the amount of the next output. *)
Definition chunk (args : Args) (na : Decimal) : Decimal :=
  let amount := py_min (max_amt_per_output args) na in
  if Qltb (na - amount) 10 then na else amount.

(** Lines 152-154. *)
Definition credit (a : string) (amount : Decimal) (out : dict Decimal)
  : dict Decimal :=
  let out := if dict_mem a out then out else dict_set a 0 out in
  match dict_get a out with
  | Some v => dict_set a (v + amount) out
  | None => out
  end.

(** The ghost state and [out] after one pass of the loop body that pays
    the chunk to [a]. *)
Definition paid (args : Args) (na : Decimal) (a : string) (r : Split) : Split :=
  mkSplit (credit a (chunk args na) (out r))
    (payments r ++ [(a, chunk args na)]) (S (iterations r)).

Section Loop.
Context {W : Type} {rpc : WalletRPC W}.

(** The module-level state the loop reads and writes.  [addr = None] is
    the name [addr] not being bound. *)
Record Proc : Type := mkProc {
  world : W;
  addr : option string;
  transactions : list string;
  stdout : list event
}.

Definition initial_state (w : W) : Proc := mkProc w None [] [].

Definition set_world (w : W) (p : Proc) : Proc :=
  mkProc w (addr p) (transactions p) (stdout p).
Definition set_addr (a : string) (p : Proc) : Proc :=
  mkProc (world p) (Some a) (transactions p) (stdout p).
Definition print (es : list event) (p : Proc) : Proc :=
  mkProc (world p) (addr p) (transactions p) (stdout p ++ es).
Definition append_transaction (t : string) (p : Proc) : Proc :=
  mkProc (world p) (addr p) (transactions p ++ [t]) (stdout p).

(** Lines 146-150; the value is [addr] afterwards.  Every value bound to
    [addr] is a string, so [addr is None] is false whenever it can be
    evaluated. *)
Definition next_addr (args : Args) (p : Proc) : outcome Proc string :=
  match address args with
  | None =>
      let fresh :=
        match getnewaddress "consolidate" (world p) with
        | (Returns a, w) => Done a (set_addr a (set_world w p))
        | (Fails e, w) => Raised (JSONRPCException e) (set_world w p)
        end in
      if negb (reuse args) then fresh
      else match addr p with
           | None => Raised (NameError "addr") p
           | Some a => Done a p
           end
  | Some a => Done a (set_addr a p)
  end.

(** Lines 142-155, entered with [na], [out] and the ghost fields. *)
Fixpoint split_loop (fuel : nat) (args : Args) (na : Decimal) (r : Split)
  (p : Proc) : outcome Proc Split :=
  if Qltb 0 na then
    match fuel with
    | O => OutOfFuel
    | S fuel' =>
        let amount := chunk args na in
        match next_addr args p with
        | Done a p' =>
            let r' :=
              if Qltb 0 amount then paid args na a r
              else mkSplit (out r) (payments r) (S (iterations r)) in
            split_loop fuel' args (na - amount) r' p'
        | Raised e p' => Raised e p'
        | Exited p' => Exited p'
        | OutOfFuel => OutOfFuel
        end
    end
  else Done r p.

Definition empty_split : Split := mkSplit [] [] 0.

(** Lines 96-102 and 108-114. *)
Definition report_clean (p : Proc) : Proc :=
  if (List.length (transactions p) =? 0)%nat then print [PrintAlreadyClean] p
  else print [PrintTransactionsSent (transactions p); PrintCleaned] p.

Definition declined (a : string) : bool :=
  String.eqb a "n" || String.eqb a "N".

(** [if not args.auto: a = input(question); if a == 'n' or a == 'N':
    sys.exit()], inside the [try]. *)
Definition ask (args : Args) (question : string) (p : Proc)
  : outcome Proc unit :=
  if auto args then Done tt p
  else
    let p := print [Prompt question] p in
    match input question (world p) with
    | (Returns a, w) =>
        if declined a then Exited (set_world w p) else Done tt (set_world w p)
    | (Fails e, w) => Exited (print [PrintTxError e] (set_world w p))
    end.

(** Lines 160-180: an exception of the [try] body is printed and ends the
    process. *)
Definition send_transaction (args : Args) (txouts : list TxIn)
  (out : dict Decimal) (amt : Decimal) (p : Proc) : outcome Proc unit :=
  match createrawtransaction txouts out (world p) with
  | (Fails e, w) => Exited (print [PrintTxError e] (set_world w p))
  | (Returns txn, w) =>
    match ask args "Sign the transaction? [y]/n: " (set_world w p) with
    | Done _ p =>
      match signrawtransaction txn (world p) with
      | (Fails e, w) => Exited (print [PrintTxError e] (set_world w p))
      | (Returns hex, w) =>
        let p := print [PrintBytes (Nat.div (String.length hex) 2)
                          (amt - Qsum (dict_values out))] (set_world w p) in
        match ask args "Send the transaction? [y]/n: " p with
        | Done _ p =>
          match sendrawtransaction hex (world p) with
          | (Fails e, w) => Exited (print [PrintTxError e] (set_world w p))
          | (Returns t, w) =>
              Done tt (print [PrintTransactionSent t]
                         (append_transaction t (set_world w p)))
          end
        | other => other
        end
      end
    | other => other
    end
  end.

(** What an iteration has decided when it reaches line 160. *)
Record Plan : Type := mkPlan {
  plan_txouts : list TxIn;
  plan_amt : Decimal;
  plan_split : Split
}.

(** Lines 116-133: the working set and the selected inputs. *)
Definition plan_inputs (args : Args) (coins : list Coin)
  (scripts : dict Group) (most : string) : Decimal * list TxIn :=
  select_inputs args (working_set scripts most) coins 0 [].

(** Lines 134-136.  Python does not fix the order in which a [set] is
    iterated; the script lines are printed in the order of the list, and
    nothing below depends on it. *)
Definition announce_inputs (args : Args) (coins : list Coin)
  (scripts : dict Group) (most : string) (p : Proc) : Proc :=
  let '(amt, txouts) := plan_inputs args coins scripts most in
  let p := print [PrintCreating (List.length txouts) amt] p in
  print (map (fun s =>
            match dict_get s scripts with
            | Some g => PrintScript s (g2 g) (g1 g)
            | None => PrintScript s 0 0
            end) (working_set scripts most)) p.

(** Lines 156-158. *)
Definition announce_outputs (amt : Decimal) (out : dict Decimal) (p : Proc)
  : Proc :=
  let paid := Qsum (dict_values out) in
  let p := print [PrintPaying paid (amt - paid)] p in
  print (map (fun o => PrintPayee (fst o) (snd o)) out) p.

(** Lines 116-158: working set, input selection and output splitting. *)
Definition build_plan (fuel : nat) (args : Args) (coins : list Coin)
  (scripts : dict Group) (most : string) (p : Proc) : outcome Proc Plan :=
  let inputs := plan_inputs args coins scripts most in
  let amt := fst inputs in
  match split_loop fuel args (amt - fee args) empty_split
          (announce_inputs args coins scripts most p) with
  | Done r p => Done (mkPlan (snd inputs) amt r) (announce_outputs amt (out r) p)
  | Raised e p => Raised e p
  | Exited p => Exited p
  | OutOfFuel => OutOfFuel
  end.

(** Does line 108 give up on this group? *)
Definition gives_up (g : Group) : bool :=
  (g2 g <? 3)%Z || Qltb (g1 g) (1 # 100).

(** One pass through the body of [while True] (lines 80-180).  [Done]
    means the loop goes round again. *)
Definition iteration (fuel : nat) (args : Args) (p : Proc)
  : outcome Proc unit :=
  match listunspent 1 99999999 (world p) with
  | (Fails e, w) => Exited (print [PrintFetchError e] (set_world w p))
  | (Returns coins, w) =>
    let p := set_world w p in
    let scripts := group_coins args coins in
    if (List.length scripts =? 0)%nat then Exited (report_clean p)
    else
      match most_overused scripts with
      | None => Raised ValueError p
      | Some most =>
        match dict_get most scripts with
        | None => Raised (KeyError most) p
        | Some g =>
          if gives_up g then Exited (report_clean p)
          else
            match build_plan fuel args coins scripts most p with
            | Done plan p =>
                send_transaction args (plan_txouts plan)
                  (out (plan_split plan)) (plan_amt plan) p
            | Raised e p => Raised e p
            | Exited p => Exited p
            | OutOfFuel => OutOfFuel
            end
        end
      end
  end.

(** [while True], for at most [rounds] passes. *)
Fixpoint main_loop (rounds fuel : nat) (args : Args) (p : Proc)
  : outcome Proc unit :=
  match rounds with
  | O => OutOfFuel
  | S rounds' =>
      match iteration fuel args p with
      | Done _ p' => main_loop rounds' fuel args p'
      | other => other
      end
  end.
End Loop.

Arguments Proc W : clear implicits.

(** ** A scripted wallet

    A wallet whose answers are written down in advance, to run the loop on
    concrete snapshots.  A call whose script is used up raises. *)

Record Scripted : Type := mkScripted {
  unspent : list (result (list Coin));
  addresses : list string;
  txids : list string;
  answers : list string
}.

#[export] Instance scripted_rpc : WalletRPC Scripted := {
  listunspent _ _ w :=
    match unspent w with
    | [] => (Fails "connection refused", w)
    | r :: rest => (r, mkScripted rest (addresses w) (txids w) (answers w))
    end;
  getnewaddress _ w :=
    match addresses w with
    | [] => (Fails "keypool ran out", w)
    | a :: rest => (Returns a, mkScripted (unspent w) rest (txids w) (answers w))
    end;
  createrawtransaction _ _ w := (Returns "0200", w);
  signrawtransaction txn w := (Returns txn, w);
  sendrawtransaction _ w :=
    match txids w with
    | [] => (Fails "rejected", w)
    | t :: rest => (Returns t, mkScripted (unspent w) (addresses w) rest (answers w))
    end;
  input _ w :=
    match answers w with
    | [] => (Fails "EOF when reading a line", w)
    | a :: rest => (Returns a, mkScripted (unspent w) (addresses w) (txids w) rest)
    end
}.

(** The defaults of the command line, in unattended mode. *)
Definition default_args : Args :=
  mkArgs 25 500 10000 1 false None true.

Definition with_address (a : string) (args : Args) : Args :=
  mkArgs (max_amt_input args) (max_num_tx args) (max_amt_per_output args)
    (fee args) (reuse args) (Some a) (auto args).

Definition with_reuse (args : Args) : Args :=
  mkArgs (max_amt_input args) (max_num_tx args) (max_amt_per_output args)
    (fee args) true (address args) (auto args).

Definition with_max_amt_per_output (m : Decimal) (args : Args) : Args :=
  mkArgs (max_amt_input args) (max_num_tx args) m
    (fee args) (reuse args) (address args) (auto args).

(** [-o 10], the defaults otherwise. *)
Definition args_10 : Args := with_max_amt_per_output 10 default_args.

(** ** Concrete snapshots *)

Definition coin_of (t : string) (script : string) (a : Decimal) : Coin :=
  mkCoin t 0 script a 200.

(** Two scripts with one qualifying output each. *)
Definition tied_snapshot : list Coin :=
  [coin_of "t1" "S1" 0.02; coin_of "t2" "S2" 0.03].

(** Three outputs of 50 to one script: none is below [max_amt_input]. *)
Definition three_large : list Coin :=
  [coin_of "t1" "S" 50; coin_of "t2" "S" 50; coin_of "t3" "S" 50].

(** Three outputs of 5 to one script. *)
Definition three_small : list Coin :=
  [coin_of "t1" "S" 5; coin_of "t2" "S" 5; coin_of "t3" "S" 5].

(** A wallet that lists the given snapshots, one per call, and then fails. *)
Definition wallet_listing (snapshots : list (list Coin)) : Scripted :=
  mkScripted (map Returns snapshots) ["A1"; "A2"; "A3"] ["T1"; "T2"] [].

(** The number of outputs of a snapshot that pay [script], and their
    amounts: the total output count and total amount of the data model. *)
Definition outputs_sharing (script : string) (coins : list Coin) : list Coin :=
  filter (fun c => String.eqb (scriptPubKey c) script) coins.

(** ** Reading runs *)

(** The process state a piece of the script ends in, when it ends. *)
Definition final {S A : Type} (o : outcome S A) : option S :=
  match o with
  | Done _ s => Some s
  | Raised _ s => Some s
  | Exited s => Some s
  | OutOfFuel => None
  end.

(** What the executions of line 154 have paid to one address. *)
Definition paid_to (a : string) (payments : list (string * Decimal))
  : Decimal :=
  Qsum (map snd (filter (fun pm => String.eqb (fst pm) a) payments)).

(** The outputs of a snapshot that pay [script] and pass the test of
    line 91. *)
Definition qualifying_outputs (args : Args) (script : string)
  (coins : list Coin) : list Coin :=
  filter (qualifies args) (outputs_sharing script coins).

(** The output lines the configuration allows: a prompt only when not in
    unattended mode, a payee line only for the explicit destination when
    there is one, and none at all in reuse mode without one. *)
Definition expected_event (args : Args) (e : event) : Prop :=
  match e with
  | Prompt _ => auto args = false
  | PrintPayee x _ =>
      match address args with
      | Some a => x = a
      | None => reuse args = false
      end
  | _ => True
  end.

Section Requests.
Context {W : Type} {rpc : WalletRPC W}.

(** [n] calls of [getnewaddress('consolidate')] in a row: the answers and
    the world afterwards, or [None] if one of them raises. *)
Fixpoint new_addresses (n : nat) (w : W) : option (list string * W) :=
  match n with
  | O => Some ([], w)
  | S n' =>
      match getnewaddress "consolidate" w with
      | (Returns a, w') =>
          match new_addresses n' w' with
          | Some (rest, w'') => Some (a :: rest, w'')
          | None => None
          end
      | (Fails _, _) => None
      end
  end.
End Requests.

Section Effects.
Context {W : Type}.

(** In reuse mode without an explicit destination, [addr] is unbound. *)
Definition unbound_in_reuse (args : Args) (p : Proc W) : Prop :=
  reuse args = true -> address args = None -> addr p = None.

(** How a stretch of the run that broadcast the transactions [ts] changes
    the process: it only appends to the output and to the run log, every
    transaction it logs has its line in the output, and when it started
    with [addr] unbound in reuse mode it printed only expected lines and
    left [addr] unbound. *)
Definition effect (args : Args) (p p' : Proc W) (ts : list string) : Prop :=
  exists es,
    stdout p' = stdout p ++ es
    /\ transactions p' = transactions p ++ ts
    /\ (forall t, In t ts -> In (PrintTransactionSent t) es)
    /\ (unbound_in_reuse args p ->
        Forall (expected_event args) es /\ unbound_in_reuse args p').
End Effects.

Section Availability.
Context {W : Type} {rpc : WalletRPC W}.

(** The address lookup of the next [k] passes of the splitting loop is
    served: an explicit destination is configured, or reuse mode is off
    and the wallet answers the next [k] calls of [getnewaddress]. *)
Definition addresses_available (args : Args) (k : nat) (p : Proc W) : Prop :=
  address args <> None
  \/ (reuse args = false /\ new_addresses k (world p) <> None).

End Availability.

(** A wallet with no address left to hand out: [getnewaddress] raises. *)
Definition wallet_without_addresses : Scripted := mkScripted [] [] [] [].

(** ** Start-up (lines 33-76) *)

(** The answer of [validateaddress]: [isvalid], and [ismine] when the
    wallet gives that key. *)
Record AddressInfo : Type := mkAddressInfo {
  isvalid : bool;
  ismine : option bool
}.

(** The calls made before the loop.  [getblockchaininfo] stands for the
    [try] block of lines 48-50 (building the proxy and the first call);
    [getwalletinfo] gives [walletinfo.get('unlocked_until', None)]. *)
Class StartupRPC (W : Type) : Type := {
  getblockchaininfo : W -> result unit * W;
  validateaddress : string -> W -> result AddressInfo * W;
  getwalletinfo : W -> result (option Z) * W
}.

Inductive startup_event : Type :=
| PrintStarting
| PrintSettings (max_amt_input : Decimal) (max_num_tx : Z)
    (max_amt_per_output : Decimal) (fee : Decimal) (reuse : bool)
| PrintAddress (a : string)
| PrintAddressReuse
| PrintAddressNew
| PrintAutoServer (auto : bool) (rpc_server : string)
| PrintCouldntConnect (e : string)
| PrintInvalidAddress (a : string)
| PrintNotInWallet (a : string)
| PrintLocked
| PrintUnlockExample
| PrintNotEncrypted
| PrintUnlocked.

(** Lines 33-46. *)
Definition banner (rpc_server : string) (args : Args) : list startup_event :=
  [PrintStarting;
   PrintSettings (max_amt_input args) (max_num_tx args)
     (max_amt_per_output args) (fee args) (reuse args)]
  ++ [match address args with
      | Some a => PrintAddress a
      | None => if reuse args then PrintAddressReuse else PrintAddressNew
      end]
  ++ [PrintAutoServer (auto args) rpc_server].

Section Startup.
Context {W : Type} {startup : StartupRPC W}.

(** Lines 64-76.  [getwalletinfo] is called outside the [try]; on a
    dictionary the [try] body raises nothing but [SystemExit], so the
    [except] branch of line 75 has no case here. *)
Definition check_wallet (w : W) : outcome (W * list startup_event) unit :=
  match getwalletinfo w with
  | (Fails e, w) => Raised (JSONRPCException e) (w, [])
  | (Returns unlocked_until, w) =>
      match unlocked_until with
      | Some 0%Z => Exited (w, [PrintLocked; PrintUnlockExample])
      | None => Done tt (w, [PrintNotEncrypted])
      | Some _ => Done tt (w, [PrintUnlocked])
      end
  end.

(** Lines 48-76: what is checked before the loop starts. *)
Definition preflight (args : Args) (w : W)
  : outcome (W * list startup_event) unit :=
  match getblockchaininfo w with
  | (Fails e, w) => Exited (w, [PrintCouldntConnect e])
  | (Returns _, w) =>
      match address args with
      | None => check_wallet w
      | Some a =>
          match validateaddress a w with
          | (Fails e, w) => Raised (JSONRPCException e) (w, [])
          | (Returns info, w) =>
              if negb (isvalid info) then Exited (w, [PrintInvalidAddress a])
              else
                match ismine info with
                | None => Raised (KeyError "ismine") (w, [])
                | Some false => Exited (w, [PrintNotInWallet a])
                | Some true => check_wallet w
                end
          end
      end
  end.

Context {rpc : WalletRPC W}.

(** The whole script: what start-up printed, and the run of the loop when
    start-up let it begin. *)
Definition program (rounds fuel : nat) (rpc_server : string) (args : Args)
  (w : W) : list startup_event * option (outcome (Proc W) unit) :=
  match preflight args w with
  | Done _ (w', lines) =>
      (banner rpc_server args ++ lines,
       Some (main_loop rounds fuel args (initial_state w')))
  | Raised _ (_, lines) => (banner rpc_server args ++ lines, None)
  | Exited (_, lines) => (banner rpc_server args ++ lines, None)
  | OutOfFuel => (banner rpc_server args, None)
  end.
End Startup.

(** The scripted wallet at start-up: it answers, it owns the addresses it
    still has to hand out, and it is not encrypted. *)
#[export] Instance scripted_startup : StartupRPC Scripted := {
  getblockchaininfo w := (Returns tt, w);
  validateaddress a w :=
    (Returns (mkAddressInfo true
                (Some (existsb (String.eqb a) (addresses w)))), w);
  getwalletinfo w := (Returns None, w)
}.

(** [-o 0 -a X], the defaults otherwise. *)
Definition args_zero_output : Args :=
  with_address "X" (with_max_amt_per_output 0 default_args).

(** [-f 20], the defaults otherwise: more than [three_small] is worth. *)
Definition args_fee_20 : Args :=
  mkArgs 25 500 10000 20 false None true.

(** * Properties *)

(** ** Decimals and dictionaries *)

Lemma Qltb_lt a b : Qltb a b = true <-> a < b.
Proof.
  unfold Qltb. rewrite negb_true_iff.
  split; intro H.
  - apply Qnot_le_lt. intro L. apply Qle_bool_iff in L. congruence.
  - destruct (Qle_bool b a) eqn:E; [|reflexivity].
    apply Qle_bool_iff in E. lra.
Qed.

Lemma Qltb_ge a b : Qltb a b = false <-> b <= a.
Proof.
  unfold Qltb. rewrite negb_false_iff. apply Qle_bool_iff.
Qed.

(** Turn the boolean tests in the context into order facts. *)
Ltac order_facts :=
  repeat match goal with
  | H : Qltb _ _ = true |- _ => apply Qltb_lt in H
  | H : Qltb _ _ = false |- _ => apply Qltb_ge in H
  | H : Qle_bool _ _ = true |- _ => apply Qle_bool_iff in H
  | H : Qeq_bool _ _ = true |- _ => apply Qeq_bool_iff in H
  | H : Qeq_bool _ _ = false |- _ => apply Qeq_bool_neq in H
  end.

Lemma Qsum_app l1 l2 : Qsum (l1 ++ l2) == Qsum l1 + Qsum l2.
Proof.
  induction l1 as [|x r IH]; simpl; [lra|]. rewrite IH. lra.
Qed.

Lemma dict_get_set_same {V} k (v : V) d : dict_get k (dict_set k v d) = Some v.
Proof.
  induction d as [|[k' v'] r IH]; simpl.
  - now rewrite String.eqb_refl.
  - destruct (String.eqb k k') eqn:E; simpl; rewrite E; auto.
Qed.

Lemma dict_set_fresh {V} k (v : V) d :
  dict_get k d = None -> dict_set k v d = d ++ [(k, v)].
Proof.
  induction d as [|[k' v'] r IH]; simpl; [reflexivity|].
  destruct (String.eqb k k'); [discriminate|].
  intro H. now rewrite IH.
Qed.

(** Overwriting a present key changes the sum by the difference. *)
Lemma dict_sum_set {V} (f : V -> Decimal) k v v' d :
  dict_get k d = Some v ->
  dict_sum f (dict_set k v' d) == dict_sum f d - f v + f v'.
Proof.
  unfold dict_sum, dict_values.
  induction d as [|[k' w] r IH]; simpl; [discriminate|].
  destruct (String.eqb k k') eqn:E; simpl.
  - intros [= ->]. lra.
  - intro H. rewrite (IH H). lra.
Qed.

Lemma dict_sum_fresh {V} (f : V -> Decimal) k v d :
  dict_get k d = None -> dict_sum f (dict_set k v d) == dict_sum f d + f v.
Proof.
  intro H. rewrite dict_set_fresh by exact H.
  unfold dict_sum, dict_values.
  rewrite !map_app, Qsum_app. simpl. lra.
Qed.

Lemma dict_sum_values d : Qsum (dict_values d) = dict_sum (fun v => v) d.
Proof. unfold dict_sum. now rewrite map_id. Qed.

(** ** Grouping *)

Lemma group_coin_total args scripts coin :
  total_amounts (group_coin args scripts coin)
  == total_amounts scripts + amount coin.
Proof.
  unfold total_amounts, group_coin, dict_mem.
  destruct (dict_get (scriptPubKey coin) scripts) as [g|] eqn:E.
  - rewrite E.
    destruct (qualifies args coin);
      rewrite (dict_sum_set g1 _ _ _ _ E); unfold g1; simpl; lra.
  - rewrite dict_get_set_same.
    destruct (qualifies args coin);
      rewrite (dict_sum_set g1 _ _ _ _ (dict_get_set_same _ _ _)),
              (dict_sum_fresh g1 _ _ _ E); unfold g1; simpl; lra.
Qed.

Lemma fold_group_total args coins : forall scripts,
  total_amounts (fold_left (group_coin args) coins scripts)
  == total_amounts scripts + Qsum (map amount coins).
Proof.
  induction coins as [|c r IH]; intro scripts; simpl; [lra|].
  rewrite IH, group_coin_total. lra.
Qed.

(** C6. After the grouping pass, the total-amount fields of all script groups
    add up to the sum of the amounts of all outputs of the list. *)
Theorem grouping_preserves_total (args : Args) (coins : list Coin) :
  total_amounts (group_coins args coins) == Qsum (map amount coins).
Proof.
  unfold group_coins. rewrite fold_group_total.
  unfold total_amounts, dict_sum. simpl. lra.
Qed.

(** ** Output splitting *)

(** The two ways a chunk is chosen: everything that is left, or exactly
    [max_amt_per_output] with at least 10 left over. *)
Lemma chunk_cases args na :
  let m := max_amt_per_output args in
  (chunk args na = na /\ (na < m \/ (m <= na /\ na - m < 10)))
  \/ (chunk args na = m /\ m <= na /\ 10 <= na - m).
Proof.
  unfold chunk, py_min.
  destruct (Qltb na (max_amt_per_output args)) eqn:E1.
  - destruct (Qltb (na - na) 10) eqn:E2; order_facts; [left; auto | lra].
  - destruct (Qltb (na - max_amt_per_output args) 10) eqn:E2; order_facts;
      [left | right]; auto.
Qed.

Lemma credit_sum a x d :
  Qsum (dict_values (credit a x d)) == Qsum (dict_values d) + x.
Proof.
  rewrite !dict_sum_values. unfold credit, dict_mem.
  destruct (dict_get a d) as [v|] eqn:E.
  - rewrite E, (dict_sum_set _ _ _ _ _ E). lra.
  - rewrite dict_get_set_same,
      (dict_sum_set _ _ _ _ _ (dict_get_set_same _ _ _)),
      (dict_sum_fresh _ _ _ _ E). lra.
Qed.

Section SplitLoop.
Context {W : Type} {rpc : WalletRPC W}.

Lemma split_loop_stop fuel args na r (p : Proc W) :
  na <= 0 -> split_loop fuel args na r p = Done r p.
Proof.
  intro H. apply Qltb_ge in H. destruct fuel; simpl; now rewrite H.
Qed.

Lemma split_loop_body fuel args na r (p : Proc W) :
  0 < na ->
  split_loop (S fuel) args na r p =
  match next_addr args p with
  | Done a p' =>
      split_loop fuel args (na - chunk args na)
        (if Qltb 0 (chunk args na) then paid args na a r
         else mkSplit (out r) (payments r) (S (iterations r))) p'
  | Raised e p' => Raised e p'
  | Exited p' => Exited p'
  | OutOfFuel => OutOfFuel
  end.
Proof.
  intro H. apply Qltb_lt in H. simpl. now rewrite H.
Qed.

Lemma next_addr_ends args (p : Proc W) :
  (exists a p', next_addr args p = Done a p')
  \/ (exists e p', next_addr args p = Raised e p').
Proof.
  unfold next_addr.
  destruct (address args); [left; eauto|].
  destruct (reuse args); simpl.
  - destruct (addr p); [left | right]; eauto.
  - destruct (getnewaddress "consolidate" (world p)) as [[a|e] w];
      [left | right]; eauto.
Qed.

(** With a non-positive [max_amt_per_output] and 10 or more to place, the
    loop never gets to its end: nothing is paid and [na] does not shrink. *)
Lemma split_loop_stuck args fuel : forall na r (p : Proc W) r' p',
  max_amt_per_output args <= 0 -> 0 < na ->
  10 <= na - max_amt_per_output args ->
  split_loop fuel args na r p <> Done r' p'.
Proof.
  induction fuel as [|fuel IH]; intros na r p r' p' Hm Hna Hrest.
  - simpl. apply Qltb_lt in Hna. now rewrite Hna.
  - rewrite split_loop_body by assumption.
    destruct (next_addr args p) as [a p1|e p1|p1|]; try discriminate.
    destruct (chunk_cases args na) as [[_ [H|[_ H]]]|[E _]]; try lra.
    rewrite E. apply IH; lra.
Qed.

(** Invariant rule for runs of the loop that reach the end: a property of
    ([na], ghost state, process) kept by every paying pass holds at the
    end, where [na] is no longer positive. *)
Lemma split_loop_invariant args (P : Decimal -> Split -> Proc W -> Prop) :
  (forall na r p a p',
      0 < na -> P na r p -> next_addr args p = Done a p' ->
      0 < chunk args na ->
      P (na - chunk args na) (paid args na a r) p') ->
  forall fuel na r p r' p',
    split_loop fuel args na r p = Done r' p' ->
    P na r p -> exists na', na' <= 0 /\ P na' r' p'.
Proof.
  intros step. induction fuel as [|fuel IH]; intros na r p r' p' Hrun HP.
  - simpl in Hrun. destruct (Qltb 0 na) eqn:E; [discriminate|].
    injection Hrun as <- <-. order_facts. eauto.
  - destruct (Qltb 0 na) eqn:E; order_facts.
    + rewrite split_loop_body in Hrun by assumption.
      destruct (next_addr args p) as [a p1|e p1|p1|] eqn:Ha;
        try discriminate.
      destruct (Qltb 0 (chunk args na)) eqn:Ec; order_facts.
      * eapply IH; [exact Hrun|]. eapply step; eauto.
      * exfalso.
        destruct (chunk_cases args na) as [[Ek _]|[Ek [Hle Hrest]]];
          rewrite Ek in *; [lra|].
        eapply split_loop_stuck; [| | |exact Hrun]; lra.
    + rewrite split_loop_stop in Hrun by assumption.
      injection Hrun as <- <-. eauto.
Qed.

(** A completed run has paid out exactly what it was given. *)
Lemma split_loop_sum args fuel na r (p : Proc W) r' p' :
  split_loop fuel args na r p = Done r' p' -> 0 <= na ->
  Qsum (dict_values (out r')) == Qsum (dict_values (out r)) + na
  /\ Qsum (chunk_sequence r') == Qsum (chunk_sequence r) + na.
Proof.
  intros Hrun Hna.
  set (P := fun (n : Decimal) (s : Split) (_ : Proc W) =>
       0 <= n
       /\ Qsum (dict_values (out s)) + n == Qsum (dict_values (out r)) + na
       /\ Qsum (chunk_sequence s) + n == Qsum (chunk_sequence r) + na).
  assert (step : forall n s q a q',
             0 < n -> P n s q -> next_addr args q = Done a q' ->
             0 < chunk args n -> P (n - chunk args n) (paid args n a s) q').
  { intros n s q a q' Hpos [_ [H1 H2]] _ Hc. unfold P, paid. simpl.
    unfold chunk_sequence in *. simpl.
    rewrite credit_sum, map_app, Qsum_app. simpl.
    destruct (chunk_cases args n) as [[Ek _]|[Ek [Hle _]]];
      rewrite Ek in *; repeat split; lra. }
  destruct (split_loop_invariant args P step _ _ _ _ _ _ Hrun)
    as [n [Hn [Hn' [H1 H2]]]].
  - unfold P. repeat split; lra.
  - split; lra.
Qed.

(** Enough passes for [na] when every one but the last takes [m]. *)
Lemma ceiling_nonneg (na m : Q) :
  0 < na -> 0 < m -> (0 <= Qceiling (na / m))%Z.
Proof.
  intros Hna Hm.
  assert (Hq : 0 < na / m) by (apply Qlt_shift_div_l; lra).
  rewrite Zle_Qle.
  apply Qlt_le_weak, (Qlt_le_trans _ _ _ Hq (Qle_ceiling (na / m))).
Qed.

Lemma ceiling_fuel (na m : Q) :
  0 < na -> 0 < m ->
  na <= inject_Z (Z.of_nat (Z.to_nat (Qceiling (na / m)))) * m.
Proof.
  intros Hna Hm.
  pose proof (Qle_ceiling (na / m)) as Hc.
  rewrite Z2Nat.id by (apply ceiling_nonneg; assumption).
  assert (E : na == na / m * m) by (field; lra).
  rewrite E at 1. apply Qmult_le_compat_r; lra.
Qed.

Lemma fuel_zero (m : Q) : inject_Z (Z.of_nat 0) * m == 0.
Proof. change (inject_Z (Z.of_nat 0)) with 0. ring. Qed.

Lemma fuel_succ (k : nat) (m : Q) :
  inject_Z (Z.of_nat (S k)) * m == inject_Z (Z.of_nat k) * m + m.
Proof.
  rewrite Nat2Z.inj_succ. unfold Z.succ. rewrite inject_Z_plus. ring.
Qed.

Lemma fuel_nonneg (k : nat) (m : Q) :
  0 < m -> 0 <= inject_Z (Z.of_nat k) * m.
Proof.
  intro Hm. apply Qmult_le_0_compat; [|lra].
  rewrite <- (Zle_Qle 0). lia.
Qed.

(** With a positive [max_amt_per_output], [k] passes are enough for any
    [na <= k * max_amt_per_output]: the loop ends, by reaching [na <= 0] or
    by an exception of the address lookup. *)
Lemma split_loop_fuel args fuel : forall na r (p : Proc W),
  0 < max_amt_per_output args ->
  na <= inject_Z (Z.of_nat fuel) * max_amt_per_output args ->
  split_loop fuel args na r p <> OutOfFuel.
Proof.
  induction fuel as [|fuel IH]; intros na r p Hm Hna.
  - rewrite split_loop_stop; [discriminate|]. rewrite fuel_zero in Hna. lra.
  - destruct (Qlt_le_dec 0 na) as [Hpos|Hneg];
      [|rewrite split_loop_stop by assumption; discriminate].
    rewrite split_loop_body by assumption.
    destruct (next_addr_ends args p) as [[a [p1 E]]|[e [p1 E]]];
      rewrite E; [|discriminate].
    rewrite fuel_succ in Hna. pose proof (fuel_nonneg fuel _ Hm).
    apply IH; [assumption|].
    destruct (chunk_cases args na) as [[Ek _]|[Ek _]]; rewrite Ek; lra.
Qed.

(** If moreover the address lookup never raises, the loop reaches its end. *)
Lemma split_loop_completes args fuel : forall na r (p : Proc W),
  0 < max_amt_per_output args ->
  (forall q : Proc W, exists a q', next_addr args q = Done a q') ->
  na <= inject_Z (Z.of_nat fuel) * max_amt_per_output args ->
  exists r' p', split_loop fuel args na r p = Done r' p'.
Proof.
  induction fuel as [|fuel IH]; intros na r p Hm Hlookup Hna.
  - rewrite split_loop_stop; [eauto|]. rewrite fuel_zero in Hna. lra.
  - destruct (Qlt_le_dec 0 na) as [Hpos|Hneg];
      [|rewrite split_loop_stop by assumption; eauto].
    rewrite split_loop_body by assumption.
    destruct (Hlookup p) as [a [p1 E]]. rewrite E.
    rewrite fuel_succ in Hna. pose proof (fuel_nonneg fuel _ Hm).
    apply IH; try assumption.
    destruct (chunk_cases args na) as [[Ek _]|[Ek _]]; rewrite Ek; lra.
Qed.

(** A completed run made at most [k] passes if [na <= k * m]. *)
Lemma split_loop_iterations args fuel na r (p : Proc W) r' p' (k : nat) :
  0 < max_amt_per_output args ->
  split_loop fuel args na r p = Done r' p' ->
  na <= inject_Z (Z.of_nat k) * max_amt_per_output args ->
  (iterations r' <= iterations r + k)%nat.
Proof.
  intros Hm Hrun Hk.
  set (P := fun (n : Decimal) (s : Split) (_ : Proc W) =>
       exists j : nat,
         n <= inject_Z (Z.of_nat j) * max_amt_per_output args
         /\ (iterations s + j <= iterations r + k)%nat).
  assert (step : forall n s q a q',
             0 < n -> P n s q -> next_addr args q = Done a q' ->
             0 < chunk args n -> P (n - chunk args n) (paid args n a s) q').
  { intros n s q a q' Hpos [j [Hj Hi]] _ _.
    destruct j as [|j]; [rewrite fuel_zero in Hj; lra|].
    exists j. rewrite fuel_succ in Hj. pose proof (fuel_nonneg j _ Hm).
    split; [|simpl; lia].
    destruct (chunk_cases args n) as [[Ek _]|[Ek _]]; rewrite Ek; lra. }
  destruct (split_loop_invariant args P step _ _ _ _ _ _ Hrun)
    as [n [_ [j [_ Hi]]]].
  - exists k. split; [assumption|lia].
  - lia.
Qed.

(** In a completed run every chunk but the last is [max_amt_per_output];
    the last one is what was left, which exceeds [max_amt_per_output] only
    by a remainder below 10. *)
Lemma split_loop_shape args fuel na r (p : Proc W) r' p' :
  0 < max_amt_per_output args ->
  split_loop fuel args na r p = Done r' p' -> 0 < na ->
  exists init last,
    chunk_sequence r' = chunk_sequence r ++ init ++ [last]
    /\ Forall (fun c => c <= max_amt_per_output args) init
    /\ (last <= max_amt_per_output args
        \/ (max_amt_per_output args < last
            /\ last - max_amt_per_output args < 10)).
Proof.
  intros Hm Hrun Hna.
  set (m := max_amt_per_output args) in *.
  set (P := fun (n : Decimal) (s : Split) (_ : Proc W) =>
       (0 < n /\ exists init,
           chunk_sequence s = chunk_sequence r ++ init
           /\ Forall (fun c => c <= m) init)
       \/ (n <= 0 /\ exists init last,
           chunk_sequence s = chunk_sequence r ++ init ++ [last]
           /\ Forall (fun c => c <= m) init
           /\ (last <= m \/ (m < last /\ last - m < 10)))).
  assert (step : forall n s q a q',
             0 < n -> P n s q -> next_addr args q = Done a q' ->
             0 < chunk args n -> P (n - chunk args n) (paid args n a s) q').
  { intros n s q a q' Hpos [[_ [init [E F]]]|[Hn _]] _ _; [|lra].
    unfold P, paid, chunk_sequence in *. simpl.
    rewrite map_app, E, <- app_assoc. simpl.
    destruct (chunk_cases args n) as [[Ek Hc]|[Ek [Hle Hrest]]];
      fold m in Hc || fold m in Ek, Hle, Hrest; rewrite Ek.
    - right. split; [lra|]. exists init, n. repeat split; auto.
      destruct (Qlt_le_dec m n); [right | left]; lra.
    - left. split; [lra|]. exists (init ++ [m]). split; [reflexivity|].
      apply Forall_app. split; [assumption|]. repeat constructor. lra. }
  destruct (split_loop_invariant args P step _ _ _ _ _ _ Hrun)
    as [n [Hn [[Hpos _]|[_ H]]]].
  - left. split; [assumption|]. exists []. rewrite app_nil_r. auto.
  - lra.
  - exact H.
Qed.

(** One served lookup: the pass gets its address and the remaining
    lookups stay served. *)
Lemma next_addr_available args k (p : Proc W) :
  addresses_available args (S k) p ->
  exists a p1, next_addr args p = Done a p1 /\ addresses_available args k p1.
Proof.
  unfold addresses_available, next_addr.
  destruct (address args) as [a|] eqn:Ha.
  - intros _. exists a, (set_addr a p). split; [reflexivity|].
    left. discriminate.
  - intros [H|[Hr Hn]]; [congruence|]. rewrite Hr. simpl in *.
    destruct (getnewaddress "consolidate" (world p)) as [[a|e] w'];
      [|congruence].
    exists a, (set_addr a (set_world w' p)). split; [reflexivity|].
    right. split; [reflexivity|]. simpl.
    destruct (new_addresses k w'); congruence.
Qed.

(** With the lookups served and a positive [max_amt_per_output], [k]
    passes bring any [na <= k * max_amt_per_output] to the end of the
    loop. *)
Lemma split_loop_completes_available args fuel : forall na r (p : Proc W),
  0 < max_amt_per_output args ->
  addresses_available args fuel p ->
  na <= inject_Z (Z.of_nat fuel) * max_amt_per_output args ->
  exists r' p', split_loop fuel args na r p = Done r' p'.
Proof.
  induction fuel as [|fuel IH]; intros na r p Hm Hav Hna.
  - rewrite split_loop_stop; [eauto|]. rewrite fuel_zero in Hna. lra.
  - destruct (Qlt_le_dec 0 na) as [Hpos|Hneg];
      [|rewrite split_loop_stop by assumption; eauto].
    rewrite split_loop_body by assumption.
    destruct (next_addr_available _ _ _ Hav) as [a [p1 [E Hav1]]].
    rewrite E. rewrite fuel_succ in Hna. pose proof (fuel_nonneg fuel _ Hm).
    apply IH; try assumption.
    destruct (chunk_cases args na) as [[Ek _]|[Ek _]]; rewrite Ek; lra.
Qed.

(** C1 (amended). For a positive payable amount [N] and a positive
    [max_amt_per_output], when an explicit destination is configured, or
    when reuse mode is off and the wallet answers the next
    [ceil(N / max_amt_per_output)] calls of [getnewaddress], the splitting
    loop reaches its end within [ceil(N / max_amt_per_output)] passes, so
    within that many plus one; the chunks it paid add up to [N] exactly, in
    the sequence of payments and in the payout mapping; and each chunk is
    at most [max_amt_per_output] except possibly the last, which then
    exceeds it by a remainder below 10. *)
Theorem split_loop_pays_all (args : Args) (N : Decimal) (p : Proc W) :
  let m := max_amt_per_output args in
  let k := Z.to_nat (Qceiling (N / m)) in
  0 < N -> 0 < m ->
  addresses_available args k p ->
  exists r p',
    split_loop k args N empty_split p = Done r p'
    /\ (Z.of_nat (iterations r) <= Qceiling (N / m) + 1)%Z
    /\ Qsum (chunk_sequence r) == N
    /\ Qsum (dict_values (out r)) == N
    /\ exists init last,
         chunk_sequence r = init ++ [last]
         /\ Forall (fun c => c <= m) init
         /\ (last <= m \/ (m < last /\ last - m < 10)).
Proof.
  cbv zeta. intros HN Hm Hav.
  set (m := max_amt_per_output args) in *.
  set (k := Z.to_nat (Qceiling (N / m))) in *.
  pose proof (ceiling_fuel _ _ HN Hm) as Hk. fold k in Hk.
  pose proof (ceiling_nonneg _ _ HN Hm) as Hz.
  destruct (split_loop_completes_available args k N empty_split p Hm Hav Hk)
    as [r [p' Hrun]].
  exists r, p'. split; [exact Hrun|]. split; [|split; [|split]].
  - pose proof (split_loop_iterations _ _ _ _ _ _ _ _ Hm Hrun Hk) as Hi.
    simpl in Hi. unfold k in Hi. lia.
  - destruct (split_loop_sum _ _ _ _ _ _ _ Hrun) as [_ H]; [lra|].
    simpl in H. lra.
  - destruct (split_loop_sum _ _ _ _ _ _ _ Hrun) as [H _]; [lra|].
    simpl in H. lra.
  - destruct (split_loop_shape _ _ _ _ _ _ _ Hm Hrun HN) as [init [last H]].
    exists init, last. exact H.
Qed.

(** The run on 25 with [max_amt_per_output] 10, pass by pass. *)
Lemma split_25_by_10_run args N fuel (p : Proc W) :
  N == 25 -> max_amt_per_output args == 10 ->
  split_loop (S (S fuel)) args N empty_split p =
  match next_addr args p with
  | Done a p1 =>
      match next_addr args p1 with
      | Done b p2 =>
          Done (paid args (N - chunk args N) b (paid args N a empty_split)) p2
      | Raised e p2 => Raised e p2
      | Exited p2 => Exited p2
      | OutOfFuel => OutOfFuel
      end
  | Raised e p1 => Raised e p1
  | Exited p1 => Exited p1
  | OutOfFuel => OutOfFuel
  end
  /\ chunk args N == 10 /\ chunk args (N - chunk args N) == 15.
Proof.
  intros HN Hm.
  assert (E1 : chunk args N = max_amt_per_output args).
  { destruct (chunk_cases args N) as [[_ H]|[E _]]; [lra|exact E]. }
  assert (E2 : chunk args (N - chunk args N) = N - chunk args N).
  { rewrite E1.
    destruct (chunk_cases args (N - max_amt_per_output args))
      as [[E _]|[_ [_ H]]]; [exact E|lra]. }
  split; [|rewrite E2, E1; split; lra].
  rewrite split_loop_body by lra.
  destruct (next_addr args p) as [a p1| | |]; try reflexivity.
  replace (Qltb 0 (chunk args N)) with true
    by (symmetry; apply Qltb_lt; rewrite E1; lra).
  rewrite split_loop_body by (rewrite E1; lra).
  destruct (next_addr args p1) as [b p2| | |]; try reflexivity.
  replace (Qltb 0 (chunk args (N - chunk args N))) with true
    by (symmetry; apply Qltb_lt; rewrite E2, E1; lra).
  apply split_loop_stop. rewrite E2. lra.
Qed.

(** C5 (amended). With payable amount 25 and [max_amt_per_output] 10,
    when an explicit destination is configured, or when reuse mode is off
    and the wallet answers the next two calls of [getnewaddress], the loop
    reaches its end after two passes and has paid exactly the chunks 10 and
    then 15. *)
Theorem split_25_pays_10_15 (args : Args) (N : Decimal) (p : Proc W) :
  N == 25 -> max_amt_per_output args == 10 ->
  addresses_available args 2 p ->
  exists r p',
    split_loop 2 args N empty_split p = Done r p'
    /\ Forall2 Qeq (chunk_sequence r) [10; 15]
    /\ iterations r = 2%nat.
Proof.
  intros HN Hm Hav.
  destruct (split_25_by_10_run args N 0%nat p HN Hm) as [E [E1 E2]].
  destruct (next_addr_available _ _ _ Hav) as [a [p1 [Ha Hav1]]].
  destruct (next_addr_available _ _ _ Hav1) as [b [p2 [Hb _]]].
  rewrite Ha, Hb in E.
  eexists _, _. split; [exact E|]. split; [|reflexivity].
  unfold chunk_sequence. simpl. repeat constructor; assumption.
Qed.

(** With an explicit destination every pass pays that address. *)
Lemma next_addr_explicit args a (p : Proc W) :
  address args = Some a -> next_addr args p = Done a (set_addr a p).
Proof. unfold next_addr. now intros ->. Qed.

Lemma credit_empty a x : credit a x [] = [(a, 0 + x)].
Proof.
  unfold credit, dict_mem. simpl. now rewrite !String.eqb_refl.
Qed.

Lemma credit_single a v x : credit a x [(a, v)] = [(a, v + x)].
Proof.
  unfold credit, dict_mem. simpl. rewrite !String.eqb_refl. simpl.
  now rewrite !String.eqb_refl.
Qed.

Lemma split_loop_explicit args a fuel na (p : Proc W) r p' :
  address args = Some a ->
  split_loop fuel args na empty_split p = Done r p' -> 0 < na ->
  exists v, out r = [(a, v)] /\ v == na.
Proof.
  intros Ha Hrun Hna.
  set (P := fun (_ : Decimal) (s : Split) (_ : Proc W) =>
       out s = [] \/ exists v, out s = [(a, v)]).
  assert (step : forall n s q b q',
             0 < n -> P n s q -> next_addr args q = Done b q' ->
             0 < chunk args n -> P (n - chunk args n) (paid args n b s) q').
  { intros n s q b q' _ HP Hb _.
    rewrite (next_addr_explicit _ _ _ Ha) in Hb. injection Hb as <- _.
    right. unfold paid. simpl.
    destruct HP as [->|[v ->]];
      [rewrite credit_empty | rewrite credit_single]; eauto. }
  destruct (split_loop_invariant args P step _ _ _ _ _ _ Hrun)
    as [n [_ HP]]; [now left|].
  destruct (split_loop_sum _ _ _ _ _ _ _ Hrun) as [Hsum _]; [lra|].
  simpl in Hsum.
  destruct HP as [E|[v E]]; rewrite E in Hsum; simpl in Hsum; [lra|].
  exists v. split; [exact E|lra].
Qed.

(** C10. In reuse mode without an explicit destination, a pass of the
    splitting loop that finds [addr] unbound, as it is from the start of the
    program, raises [NameError] at [addr is None]: the loop produces no
    payout mapping and asks the wallet for nothing. *)
Theorem reuse_unbound_addr_raises (args : Args) (fuel : nat) (na : Decimal)
  (r : Split) (p : Proc W) :
  reuse args = true -> address args = None -> addr p = None -> 0 < na ->
  split_loop (S fuel) args na r p = Raised (NameError "addr") p.
Proof.
  intros Hreuse Haddress Hunbound Hna.
  rewrite split_loop_body by assumption.
  unfold next_addr. now rewrite Haddress, Hreuse, Hunbound.
Qed.
End SplitLoop.

(** ** Input selection and the plan *)

(** What the selection loop adds to its accumulators: the inputs of the
    first matching coins that still fit under [max_num_tx], and their
    amounts. *)
Lemma select_inputs_selected args usescripts coins : forall amt txouts,
  let sel :=
    firstn (Z.to_nat (max_num_tx args - Z.of_nat (List.length txouts)))
      (filter (in_use usescripts) coins) in
  snd (select_inputs args usescripts coins amt txouts)
    = txouts ++ map txin_of sel
  /\ fst (select_inputs args usescripts coins amt txouts)
     == amt + Qsum (map amount sel).
Proof.
  induction coins as [|coin rest IH]; intros amt txouts; simpl.
  - rewrite firstn_nil, app_nil_r. simpl. split; [reflexivity|lra].
  - destruct (max_num_tx args <=? Z.of_nat (List.length txouts))%Z eqn:Efull.
    + apply Z.leb_le in Efull.
      replace (Z.to_nat (max_num_tx args - Z.of_nat (List.length txouts)))
        with 0%nat by lia.
      simpl. rewrite app_nil_r. split; [reflexivity|lra].
    + apply Z.leb_gt in Efull.
      destruct (in_use usescripts coin) eqn:Euse.
      * destruct (IH (amt + amount coin) (txouts ++ [txin_of coin]))
          as [Hin Hamt].
        rewrite Hin, Hamt, length_app. simpl.
        replace (Z.to_nat (max_num_tx args - Z.of_nat (List.length txouts)))
          with (S (Z.to_nat (max_num_tx args
                             - Z.of_nat (List.length txouts + 1)))) by lia.
        simpl. rewrite <- app_assoc. simpl. split; [reflexivity|lra].
      * apply IH.
Qed.

Lemma plan_inputs_selected args coins scripts most :
  let sel := selected_coins args (working_set scripts most) coins in
  snd (plan_inputs args coins scripts most) = map txin_of sel
  /\ fst (plan_inputs args coins scripts most) == Qsum (map amount sel).
Proof.
  unfold plan_inputs, selected_coins.
  destruct (select_inputs_selected args (working_set scripts most) coins 0 [])
    as [Hin Hamt].
  simpl in Hin, Hamt. rewrite Z.sub_0_r in Hin, Hamt.
  split; [exact Hin|]. rewrite Hamt. lra.
Qed.

Section Plans.
Context {W : Type} {rpc : WalletRPC W}.

(** A plan is built exactly when the splitting loop reaches its end. *)
Lemma build_plan_done fuel args coins scripts most (p : Proc W) plan p' :
  build_plan fuel args coins scripts most p = Done plan p' ->
  exists r p1,
    split_loop fuel args (fst (plan_inputs args coins scripts most) - fee args)
      empty_split (announce_inputs args coins scripts most p) = Done r p1
    /\ plan = mkPlan (snd (plan_inputs args coins scripts most))
                (fst (plan_inputs args coins scripts most)) r.
Proof.
  unfold build_plan.
  destruct (split_loop _ _ _ _ _) as [r p1| | |]; try discriminate.
  intros [= <- _]. eauto.
Qed.

(** C2. In every plan built from selected inputs worth more than the fee,
    the payout amounts of the mapping plus the fee equal, exactly, the sum
    of the amounts of the selected inputs; the plan's inputs are those
    coins and its total is that sum. *)
Theorem plan_balances (fuel : nat) (args : Args) (coins : list Coin)
  (scripts : dict Group) (most : string) (p : Proc W) (plan : Plan) (p' : Proc W) :
  let sel := selected_coins args (working_set scripts most) coins in
  build_plan fuel args coins scripts most p = Done plan p' ->
  fee args < Qsum (map amount sel) ->
  plan_txouts plan = map txin_of sel
  /\ plan_amt plan == Qsum (map amount sel)
  /\ Qsum (dict_values (out (plan_split plan))) + fee args
     == Qsum (map amount sel).
Proof.
  intros sel Hplan Hfee.
  destruct (build_plan_done _ _ _ _ _ _ _ _ Hplan) as [r [p1 [Hrun ->]]].
  destruct (plan_inputs_selected args coins scripts most) as [Hin Hamt].
  fold sel in Hin, Hamt. simpl.
  split; [exact Hin|]. split; [exact Hamt|].
  destruct (split_loop_sum _ _ _ _ _ _ _ Hrun) as [Hsum _]; [lra|].
  simpl in Hsum. lra.
Qed.

(** C8. With an explicit destination address and a positive payable amount
    (the selected inputs are worth more than the fee), the payout mapping of
    a built plan has exactly one key, that address, and its value is the
    whole payable amount; with a positive [max_amt_per_output] the plan is
    built. *)
Theorem explicit_address_single_payee (args : Args) (a : string)
  (coins : list Coin) (scripts : dict Group) (most : string) (p : Proc W) :
  let amt := fst (plan_inputs args coins scripts most) in
  address args = Some a -> fee args < amt ->
  (0 < max_amt_per_output args ->
   exists fuel plan p',
     build_plan fuel args coins scripts most p = Done plan p')
  /\ (forall fuel plan p',
        build_plan fuel args coins scripts most p = Done plan p' ->
        plan_amt plan = amt
        /\ dict_keys (out (plan_split plan)) = [a]
        /\ exists v, out (plan_split plan) = [(a, v)] /\ v == amt - fee args).
Proof.
  intros amt Ha Hfee. split.
  - intro Hm.
    destruct (split_loop_completes args
                (Z.to_nat (Qceiling ((amt - fee args)
                                     / max_amt_per_output args)))
                (amt - fee args) empty_split
                (announce_inputs args coins scripts most p) Hm)
      as [r [p1 Hrun]].
    { intro q. rewrite (next_addr_explicit _ _ _ Ha). eauto. }
    { apply ceiling_fuel; [lra|assumption]. }
    eexists _, _, _. unfold build_plan. fold amt. rewrite Hrun. reflexivity.
  - intros fuel plan p' Hplan.
    destruct (build_plan_done _ _ _ _ _ _ _ _ Hplan) as [r [p1 [Hrun ->]]].
    fold amt in Hrun. simpl.
    destruct (split_loop_explicit _ _ _ _ _ _ _ Ha Hrun) as [v [E Hv]]; [lra|].
    rewrite E. split; [reflexivity|]. split; [reflexivity|]. eauto.
Qed.
End Plans.

(** ** Candidate selection *)

Lemma group_gt_lt a b : group_gt a b = true <-> group_lt b a.
Proof.
  unfold group_gt, group_lt.
  destruct (g0 a =? g0 b)%Z eqn:E0; simpl.
  - apply Z.eqb_eq in E0.
    destruct (Qeq_bool (g1 a) (g1 b)) eqn:E1; simpl; order_facts.
    + rewrite Z.ltb_lt. split.
      * intro H. right. split; [lia|]. right. split; [lra|lia].
      * intros [H|[_ [H|[_ H]]]]; [lia|lra|lia].
    + rewrite Qltb_lt. split.
      * intro H. right. split; [lia|]. now left.
      * intros [H|[_ [H|[H _]]]]; [lia|exact H|].
        exfalso. apply E1. lra.
  - apply Z.eqb_neq in E0. rewrite Z.ltb_lt. split.
    + intro H. now left.
    + intros [H|[H _]]; lia.
Qed.

Lemma group_gt_not_lt a b : group_gt a b = false <-> ~ group_lt b a.
Proof.
  rewrite <- group_gt_lt. destruct (group_gt a b); split; congruence.
Qed.

Lemma group_lt_count a b : group_lt a b -> (g0 a <= g0 b)%Z.
Proof. unfold group_lt. intros [?|[? _]]; lia. Qed.

Lemma group_not_lt_count a b : ~ group_lt a b -> (g0 b <= g0 a)%Z.
Proof.
  unfold group_lt. intro H.
  destruct (Z_lt_le_dec (g0 a) (g0 b)); [|assumption].
  exfalso. apply H. now left.
Qed.

(** [a < b <= c] and [a <= b < c] give [a < c]. *)
Lemma group_lt_le_trans a b c :
  group_lt a b -> ~ group_lt c b -> group_lt a c.
Proof.
  unfold group_lt. intros Hab Hcb.
  destruct (Z.lt_trichotomy (g0 b) (g0 c)) as [H0|[H0|H0]].
  - left. destruct Hab as [?|[? _]]; lia.
  - destruct Hab as [?|[E Hab]]; [left; lia|].
    right. split; [lia|].
    destruct (Q_dec (g1 b) (g1 c)) as [[H1|H1]|H1].
    + left. destruct Hab as [?|[? _]]; lra.
    + exfalso. apply Hcb. right. split; [lia|]. now left.
    + destruct Hab as [?|[E1 Hab]]; [left; lra|].
      right. split; [lra|].
      destruct (Z_lt_le_dec (g2 c) (g2 b)); [|lia].
      exfalso. apply Hcb. right. split; [lia|]. right. split; [lra|lia].
  - exfalso. apply Hcb. now left.
Qed.

Lemma group_le_lt_trans a b c :
  ~ group_lt b a -> group_lt b c -> group_lt a c.
Proof.
  unfold group_lt. intros Hba Hbc.
  destruct (Z.lt_trichotomy (g0 a) (g0 b)) as [H0|[H0|H0]].
  - left. destruct Hbc as [?|[? _]]; lia.
  - destruct Hbc as [?|[E Hbc]]; [left; lia|].
    right. split; [lia|].
    destruct (Q_dec (g1 a) (g1 b)) as [[H1|H1]|H1].
    + left. destruct Hbc as [?|[? _]]; lra.
    + exfalso. apply Hba. right. split; [lia|]. now left.
    + destruct Hbc as [?|[E1 Hbc]]; [left; lra|].
      right. split; [lra|].
      destruct (Z_lt_le_dec (g2 b) (g2 a)); [|lia].
      exfalso. apply Hba. right. split; [lia|]. right. split; [lra|lia].
  - exfalso. apply Hba. now left.
Qed.

(** Where [max] finds its result: everything before it is strictly smaller,
    nothing after it is greater. *)
Lemma max_from_position items : forall best,
  exists before most g after,
    max_from best items = (most, g)
    /\ best :: items = before ++ (most, g) :: after
    /\ Forall (fun it => group_lt (snd it) g) before
    /\ Forall (fun it => ~ group_lt g (snd it)) after
    /\ ~ group_lt g (snd best).
Proof.
  induction items as [|it rest IH]; intro best.
  - exists [], (fst best), (snd best), []. simpl.
    destruct best as [k g]. simpl. repeat split; auto.
    unfold group_lt. intros [?|[_ [?|[_ ?]]]]; lia || lra.
  - simpl. destruct (group_gt (snd it) (snd best)) eqn:E.
    + apply group_gt_lt in E.
      destruct (IH it) as [before [most [g [after [Hmax [Hpos [Hb [Ha Hit]]]]]]]].
      exists (best :: before), most, g, after.
      split; [exact Hmax|]. split; [simpl; now rewrite Hpos|].
      assert (Hbest : group_lt (snd best) g)
        by (eapply group_lt_le_trans; eauto).
      split; [constructor; assumption|]. split; [exact Ha|].
      intro H. unfold group_lt in H, Hbest.
      destruct H as [?|[? [?|[? ?]]]], Hbest as [?|[? [?|[? ?]]]]; lia || lra.
    + apply group_gt_not_lt in E.
      destruct (IH best) as [before [most [g [after [Hmax [Hpos [Hb [Ha Hbest]]]]]]]].
      destruct before as [|b before]; simpl in Hpos.
      * injection Hpos as Ebest Erest. subst best after.
        exists [], most, g, (it :: rest). simpl in *.
        split; [exact Hmax|]. split; [reflexivity|].
        split; [constructor|]. split; [|exact Hbest].
        constructor; assumption.
      * injection Hpos as Ebest Erest. subst b rest.
        inversion Hb as [|? ? Hb1 Hb2]; subst.
        exists (best :: it :: before), most, g, after.
        split; [exact Hmax|]. split; [reflexivity|].
        split; [|split; [exact Ha|exact Hbest]].
        constructor; [exact Hb1|]. constructor; [|exact Hb2].
        eapply group_le_lt_trans; eauto.
Qed.

Lemma dict_set_nonempty {V} k (v : V) d : dict_set k v d <> [].
Proof. destruct d as [|[k' v'] r]; simpl; [|destruct (String.eqb k k')]; discriminate. Qed.

Lemma group_coin_nonempty args scripts coin : group_coin args scripts coin <> [].
Proof.
  unfold group_coin, dict_mem.
  destruct (dict_get (scriptPubKey coin) scripts) eqn:E.
  - rewrite E. destruct (qualifies args coin); apply dict_set_nonempty.
  - rewrite dict_get_set_same.
    destruct (qualifies args coin); apply dict_set_nonempty.
Qed.

Lemma group_coins_nonempty args coins :
  coins <> [] -> group_coins args coins <> [].
Proof.
  unfold group_coins. intro H.
  destruct coins as [|c rest]; [congruence|]. clear H. simpl.
  generalize (group_coin_nonempty args [] c).
  generalize (group_coin args [] c).
  induction rest as [|c' rest IH]; intros d Hd; simpl; [exact Hd|].
  apply IH, group_coin_nonempty.
Qed.

(** C4 (amended). For every non-empty snapshot the selected script has the
    greatest qualifying count, and more precisely the greatest whole tuple
    (qualifying count, then total amount, then third field): every script
    seen before it has a strictly smaller tuple and no script seen after it
    has a greater one.  So a tie on the qualifying count goes to the greater
    total amount, and the first-seen script wins only among equal tuples. *)
Theorem most_overused_greatest_tuple (args : Args) (coins : list Coin) :
  coins <> [] ->
  exists before most g after,
    most_overused (group_coins args coins) = Some most
    /\ group_coins args coins = before ++ (most, g) :: after
    /\ Forall (fun it => group_lt (snd it) g) before
    /\ Forall (fun it => ~ group_lt g (snd it)) after
    /\ (forall it, In it (group_coins args coins) -> (g0 (snd it) <= g0 g)%Z).
Proof.
  intro Hcoins.
  pose proof (group_coins_nonempty args coins Hcoins) as Hne.
  unfold most_overused, py_max.
  destruct (group_coins args coins) as [|best items]; [congruence|].
  destruct (max_from_position items best)
    as [before [most [g [after [Hmax [Hpos [Hb [Ha _]]]]]]]].
  exists before, most, g, after. rewrite Hmax. simpl.
  split; [reflexivity|]. split; [exact Hpos|].
  split; [exact Hb|]. split; [exact Ha|].
  intros it Hin. change (In it (best :: items)) in Hin.
  rewrite Hpos in Hin. apply in_app_or in Hin.
  rewrite Forall_forall in Hb, Ha.
  destruct Hin as [Hin|[<-|Hin]].
  - apply group_lt_count, Hb, Hin.
  - simpl. lia.
  - apply group_not_lt_count, Ha, Hin.
Qed.

(** C4 as stated fails: on [tied_snapshot] both scripts have qualifying
    count 1, S1 is seen first, and S2, whose total amount is greater, is
    selected. *)
Lemma first_seen_tie_break_fails :
  ~ (forall args coins,
        coins <> [] ->
        most_overused (group_coins args coins)
        = first_seen_greatest_count (group_coins args coins)).
Proof.
  intro H.
  assert (Hne : tied_snapshot <> []) by discriminate.
  specialize (H default_args tied_snapshot Hne).
  vm_compute in H. discriminate.
Qed.

Lemma most_overused_greatest_tuple_witness :
  tied_snapshot <> []
  /\ exists before most g after,
       most_overused (group_coins default_args tied_snapshot) = Some most
       /\ group_coins default_args tied_snapshot = before ++ (most, g) :: after
       /\ Forall (fun it => group_lt (snd it) g) before
       /\ Forall (fun it => ~ group_lt g (snd it)) after
       /\ (forall it, In it (group_coins default_args tied_snapshot) ->
                      (g0 (snd it) <= g0 g)%Z).
Proof.
  split; [discriminate|].
  apply (most_overused_greatest_tuple default_args tied_snapshot).
  discriminate.
Defined.

(** ** The loop body *)

Lemma dict_set_values {V} (Q : V -> Prop) k v (d : dict V) :
  Forall (fun it => Q (snd it)) d -> Q v ->
  Forall (fun it => Q (snd it)) (dict_set k v d).
Proof.
  intros Hd Hv. induction d as [|[k' v'] r IH]; simpl.
  - repeat constructor. exact Hv.
  - inversion Hd; subst.
    destruct (String.eqb k k'); constructor; auto.
Qed.

(** The third field of a group is not a count of outputs: line 92 and line
    94 both set it to the old qualifying count plus one, so after the pass
    it is the qualifying count, or one more when the script's last output
    did not qualify. *)
Lemma third_field_follows_qualifying args coins :
  Forall (fun it => g2 (snd it) = g0 (snd it)
                    \/ g2 (snd it) = (g0 (snd it) + 1)%Z)
    (group_coins args coins).
Proof.
  unfold group_coins.
  assert (H : Forall (fun it : string * Group =>
                        g2 (snd it) = g0 (snd it)
                        \/ g2 (snd it) = (g0 (snd it) + 1)%Z) [])
    by constructor.
  revert H. generalize (@nil (string * Group)).
  induction coins as [|c rest IH]; intros d Hd; simpl; [exact Hd|].
  apply IH. unfold group_coin, dict_mem.
  destruct (dict_get (scriptPubKey c) d) as [g|] eqn:E.
  - rewrite E. destruct (qualifies args c);
      apply (dict_set_values
               (fun g => g2 g = g0 g \/ g2 g = (g0 g + 1)%Z));
      unfold g0, g2; simpl; auto.
  - rewrite dict_get_set_same.
    destruct (qualifies args c);
      repeat (apply (dict_set_values
                       (fun g => g2 g = g0 g \/ g2 g = (g0 g + 1)%Z));
              unfold g0, g2; simpl; auto).
Qed.

Section Body.
Context {W : Type} {rpc : WalletRPC W}.


(** When the loop gives up on the selected group, as the code decides it. *)
Lemma iteration_gives_up fuel args (p : Proc W) coins w most g :
  listunspent 1 99999999 (world p) = (Returns coins, w) ->
  most_overused (group_coins args coins) = Some most ->
  dict_get most (group_coins args coins) = Some g ->
  gives_up g = true ->
  iteration fuel args p = Exited (report_clean (set_world w p)).
Proof.
  unfold iteration. intros -> Hmost Hg Hup.
  destruct (group_coins args coins) as [|it rest] eqn:E; [discriminate|].
  simpl List.length. simpl Nat.eqb. now rewrite Hmost, Hg, Hup.
Qed.
End Body.

(** C3. Evaluation at three outputs of 50 to one script S, 200
    confirmations each, defaults otherwise: S is selected, three outputs
    share it and their total is 150, yet the third field of its group is 1
    and the loop stops, reporting the wallet clean. *)
Theorem three_large_outputs_stop :
  most_overused (group_coins default_args three_large) = Some "S"
  /\ List.length (outputs_sharing "S" three_large) = 3%nat
  /\ Qsum (map amount (outputs_sharing "S" three_large)) == 150
  /\ dict_get "S" (group_coins default_args three_large)
     = Some (0%Z, 150, 1%Z)
  /\ exists p',
       iteration 1 default_args (initial_state (wallet_listing [three_large]))
       = Exited p'
       /\ stdout p' = [PrintAlreadyClean].
Proof.
  repeat split; try reflexivity.
  eexists. split; [vm_compute; reflexivity|reflexivity].
Qed.

(** C7. Evaluation in reuse mode without an explicit destination, on three
    outputs of 5 to one script: the first pass of the loop ends in
    [NameError] before anything is paid, and no address has been requested
    from the wallet. *)
Theorem reuse_mode_requests_no_address :
  exists p',
    main_loop 1 1 (with_reuse default_args)
      (initial_state (wallet_listing [three_small]))
    = Raised (NameError "addr") p'
    /\ addresses (world p') = ["A1"; "A2"; "A3"]
    /\ addr p' = None
    /\ transactions p' = []
    /\ stdout p' = [PrintCreating 3 15; PrintScript "S" 3 15].
Proof.
  eexists. split; [vm_compute; reflexivity|]. repeat split; reflexivity.
Qed.

(** ** Instances *)

Lemma split_loop_pays_all_witness :
  0 < 25 /\ 0 < max_amt_per_output args_10
  /\ addresses_available args_10 3 (initial_state (wallet_listing []))
  /\ exists r p',
       split_loop 3 args_10 25 empty_split (initial_state (wallet_listing []))
       = Done r p'
       /\ Qsum (chunk_sequence r) == 25
       /\ Qsum (dict_values (out r)) == 25.
Proof.
  assert (Hav : addresses_available args_10 3
                  (initial_state (wallet_listing [])))
    by (right; split; [reflexivity|discriminate]).
  split; [reflexivity|]. split; [reflexivity|]. split; [exact Hav|].
  destruct (split_loop_pays_all args_10 25
              (initial_state (wallet_listing [])) eq_refl eq_refl Hav)
    as [r [p' [Hrun [_ [Hsum [Hout _]]]]]].
  exists r, p'. split; [exact Hrun|]. split; [exact Hsum|exact Hout].
Defined.

(** C1 as stated fails: in default mode with a wallet that has no address
    to give, the first pass raises the error of [getnewaddress] and no run
    of the loop reaches its end; in reuse mode the first pass raises
    [NameError].  In both nothing is paid. *)
Lemma split_loop_may_raise :
  ~ (forall (args : Args) (N : Decimal) (p : Proc Scripted),
        0 < N -> 0 < max_amt_per_output args ->
        exists fuel r p',
          split_loop fuel args N empty_split p = Done r p'
          /\ Qsum (chunk_sequence r) == N)
  /\ split_loop 1 args_10 5 empty_split (initial_state wallet_without_addresses)
     = Raised (JSONRPCException "keypool ran out")
         (initial_state wallet_without_addresses)
  /\ split_loop 1 (with_reuse args_10) 5 empty_split
       (initial_state (wallet_listing []))
     = Raised (NameError "addr") (initial_state (wallet_listing [])).
Proof.
  split; [|split; reflexivity].
  intro H.
  destruct (H args_10 5 (initial_state wallet_without_addresses)
              eq_refl eq_refl) as [fuel [r [p' [Hrun _]]]].
  destruct fuel; vm_compute in Hrun; discriminate.
Qed.

Lemma split_25_pays_10_15_witness :
  25 == 25 /\ max_amt_per_output args_10 == 10
  /\ addresses_available args_10 2 (initial_state (wallet_listing []))
  /\ exists r p',
       split_loop 2 args_10 25 empty_split (initial_state (wallet_listing []))
       = Done r p'
       /\ Forall2 Qeq (chunk_sequence r) [10; 15].
Proof.
  assert (Hav : addresses_available args_10 2
                  (initial_state (wallet_listing [])))
    by (right; split; [reflexivity|discriminate]).
  split; [reflexivity|]. split; [reflexivity|]. split; [exact Hav|].
  destruct (split_25_pays_10_15 args_10 25
              (initial_state (wallet_listing [])) eq_refl eq_refl Hav)
    as [r [p' [Hrun [Hseq _]]]].
  exists r, p'. split; [exact Hrun|exact Hseq].
Defined.

(** C5 as stated fails: with payable amount 25 and [max_amt_per_output] 10
    in default mode, a wallet with no address to give makes the first pass
    raise, and no run of the loop produces a chunk sequence; in reuse mode
    the first pass raises [NameError]. *)
Lemma split_25_may_raise :
  ~ (forall (args : Args) (p : Proc Scripted),
        max_amt_per_output args == 10 ->
        exists fuel r p',
          split_loop fuel args 25 empty_split p = Done r p'
          /\ Forall2 Qeq (chunk_sequence r) [10; 15])
  /\ split_loop 2 args_10 25 empty_split
       (initial_state wallet_without_addresses)
     = Raised (JSONRPCException "keypool ran out")
         (initial_state wallet_without_addresses)
  /\ split_loop 2 (with_reuse args_10) 25 empty_split
       (initial_state (wallet_listing []))
     = Raised (NameError "addr") (initial_state (wallet_listing [])).
Proof.
  split; [|split; reflexivity].
  intro H.
  destruct (H args_10 (initial_state wallet_without_addresses) eq_refl)
    as [fuel [r [p' [Hrun _]]]].
  destruct fuel; vm_compute in Hrun; discriminate.
Qed.

Lemma reuse_unbound_addr_raises_witness :
  reuse (with_reuse default_args) = true
  /\ address (with_reuse default_args) = None
  /\ addr (initial_state (wallet_listing [])) = None
  /\ 0 < 25
  /\ split_loop 1 (with_reuse default_args) 25 empty_split
       (initial_state (wallet_listing []))
     = Raised (NameError "addr") (initial_state (wallet_listing [])).
Proof.
  repeat (split; [reflexivity|]).
  exact (reuse_unbound_addr_raises (with_reuse default_args) 0 25 empty_split
           (initial_state (wallet_listing [])) eq_refl eq_refl eq_refl eq_refl).
Defined.

Lemma plan_balances_witness :
  exists plan p',
    build_plan 1 default_args three_small
      (group_coins default_args three_small) "S"
      (initial_state (wallet_listing [])) = Done plan p'
    /\ fee default_args
       < Qsum (map amount
                 (selected_coins default_args
                    (working_set (group_coins default_args three_small) "S")
                    three_small))
    /\ Qsum (dict_values (out (plan_split plan))) + fee default_args
       == Qsum (map amount
                  (selected_coins default_args
                     (working_set (group_coins default_args three_small) "S")
                     three_small)).
Proof.
  destruct (build_plan 1 default_args three_small
              (group_coins default_args three_small) "S"
              (initial_state (wallet_listing [])))
    as [plan p'|e p'|p'|] eqn:Hplan;
    [|vm_compute in Hplan; discriminate ..].
  exists plan, p'. split; [reflexivity|]. split; [reflexivity|].
  exact (proj2 (proj2 (plan_balances 1 default_args three_small
                         (group_coins default_args three_small) "S"
                         (initial_state (wallet_listing [])) plan p'
                         Hplan eq_refl))).
Defined.

Lemma explicit_address_single_payee_witness :
  address (with_address "X" default_args) = Some "X"
  /\ fee (with_address "X" default_args)
     < fst (plan_inputs (with_address "X" default_args) three_small
              (group_coins default_args three_small) "S")
  /\ exists fuel plan p',
       build_plan fuel (with_address "X" default_args) three_small
         (group_coins default_args three_small) "S"
         (initial_state (wallet_listing [])) = Done plan p'.
Proof.
  split; [reflexivity|]. split; [reflexivity|].
  exact (proj1 (explicit_address_single_payee (with_address "X" default_args)
                  "X" three_small (group_coins default_args three_small) "S"
                  (initial_state (wallet_listing [])) eq_refl eq_refl)
           eq_refl).
Defined.

(** * Further properties of the loop *)

(** ** Dictionaries *)

Lemma dict_get_set_other {V} k k' (v : V) d :
  String.eqb k k' = false -> dict_get k (dict_set k' v d) = dict_get k d.
Proof.
  intro Hk. induction d as [|[k'' v''] r IH]; simpl.
  - now rewrite Hk.
  - destruct (String.eqb k' k'') eqn:E; simpl.
    + apply String.eqb_eq in E. subst k''. now rewrite Hk.
    + destruct (String.eqb k k''); [reflexivity|exact IH].
Qed.

Lemma dict_get_in_keys {V} k (d : dict V) :
  dict_get k d <> None <-> In k (dict_keys d).
Proof.
  induction d as [|[k' v'] r IH]; simpl; [tauto|].
  destruct (String.eqb k k') eqn:E.
  - apply String.eqb_eq in E. split; [auto|discriminate].
  - apply String.eqb_neq in E. rewrite IH. split; [auto|].
    intros [H|H]; [congruence|exact H].
Qed.

Lemma dict_keys_set {V} k (v : V) d :
  dict_keys (dict_set k v d)
  = if dict_mem k d then dict_keys d else dict_keys d ++ [k].
Proof.
  unfold dict_mem. induction d as [|[k' v'] r IH]; simpl; [reflexivity|].
  destruct (String.eqb k k') eqn:E; simpl; [reflexivity|].
  rewrite IH. now destruct (dict_get k r).
Qed.

Lemma dict_set_keeps_nodup {V} k (v : V) d :
  NoDup (dict_keys d) -> NoDup (dict_keys (dict_set k v d)).
Proof.
  intro H. rewrite dict_keys_set. unfold dict_mem.
  destruct (dict_get k d) eqn:E; [exact H|].
  apply NoDup_app; [exact H|repeat constructor; simpl; tauto|].
  intros x Hx [<-|[]]. apply dict_get_in_keys in Hx. congruence.
Qed.

(** ** Grouping, script by script *)

(** What the body of the grouping loop does to the entry of the coin's
    script, and that it touches no other entry. *)
Lemma group_coin_same args d c :
  dict_get (scriptPubKey c) (group_coin args d c)
  = let b := match dict_get (scriptPubKey c) d with
             | Some g => g
             | None => (0%Z, 0, 0%Z)
             end in
    Some (if qualifies args c
          then ((g0 b + 1)%Z, g1 b + amount c, (g0 b + 1)%Z)
          else (g0 b, g1 b + amount c, (g0 b + 1)%Z)).
Proof.
  unfold group_coin, dict_mem.
  destruct (dict_get (scriptPubKey c) d) as [g|] eqn:E.
  - rewrite E. destruct (qualifies args c); apply dict_get_set_same.
  - rewrite dict_get_set_same.
    destruct (qualifies args c); apply dict_get_set_same.
Qed.

Lemma group_coin_other args d c s :
  String.eqb s (scriptPubKey c) = false ->
  dict_get s (group_coin args d c) = dict_get s d.
Proof.
  intro Hs. unfold group_coin, dict_mem.
  destruct (dict_get (scriptPubKey c) d) as [g|] eqn:E.
  - rewrite E. destruct (qualifies args c); now apply dict_get_set_other.
  - rewrite dict_get_set_same.
    destruct (qualifies args c);
      rewrite !dict_get_set_other by exact Hs; reflexivity.
Qed.

Lemma group_coins_snoc args coins c :
  group_coins args (coins ++ [c]) = group_coin args (group_coins args coins) c.
Proof. unfold group_coins. now rewrite fold_left_app. Qed.

Lemma outputs_sharing_snoc s coins c :
  outputs_sharing s (coins ++ [c])
  = outputs_sharing s coins
    ++ (if String.eqb (scriptPubKey c) s then [c] else []).
Proof. unfold outputs_sharing. now rewrite filter_app. Qed.

(** The entry of a script after the pass, read off the outputs that pay
    it. *)
Lemma group_coins_lookup args coins : forall s,
  match dict_get s (group_coins args coins) with
  | None => outputs_sharing s coins = []
  | Some g =>
      outputs_sharing s coins <> []
      /\ g0 g = Z.of_nat (List.length (qualifying_outputs args s coins))
      /\ g1 g == Qsum (map amount (outputs_sharing s coins))
      /\ forall c0,
           g2 g = (g0 g + if qualifies args (last (outputs_sharing s coins) c0)
                          then 0 else 1)%Z
  end.
Proof.
  induction coins as [|c coins IH] using rev_ind; intro s; [reflexivity|].
  rewrite group_coins_snoc. unfold qualifying_outputs.
  rewrite outputs_sharing_snoc.
  destruct (String.eqb (scriptPubKey c) s) eqn:Es.
  - apply String.eqb_eq in Es. subst s.
    rewrite group_coin_same. specialize (IH (scriptPubKey c)).
    unfold qualifying_outputs in IH.
    rewrite filter_app, length_app, map_app. simpl.
    split; [now destruct (outputs_sharing (scriptPubKey c) coins)|].
    assert (Hlast : forall c0,
               last (outputs_sharing (scriptPubKey c) coins ++ [c]) c0 = c)
      by (intro; apply last_last).
    destruct (dict_get (scriptPubKey c) (group_coins args coins)) as [g|].
    + destruct IH as [_ [H0 [H1 _]]].
      destruct (qualifies args c) eqn:Eq; unfold g0, g1, g2 in *; simpl;
        (split; [lia|]); (split; [rewrite Qsum_app, H1; simpl; lra|]);
        intro c0; rewrite Hlast, Eq; lia.
    + rewrite IH.
      destruct (qualifies args c) eqn:Eq; unfold g0, g1, g2; simpl;
        (split; [lia|]); (split; [lra|]);
        intro c0; rewrite Eq; lia.
  - rewrite app_nil_r.
    rewrite group_coin_other
      by (rewrite String.eqb_sym; exact Es).
    apply IH.
Qed.

(** X1. After the grouping pass the first field of a script's group is the
    number of its outputs that pass the test of line 91, and the second is
    the sum of the amounts of all its outputs. *)
Theorem group_counts_and_totals (args : Args) (coins : list Coin)
  (s : string) (g : Group) :
  dict_get s (group_coins args coins) = Some g ->
  g0 g = Z.of_nat (List.length (qualifying_outputs args s coins))
  /\ g1 g == Qsum (map amount (outputs_sharing s coins)).
Proof.
  intro Hg. pose proof (group_coins_lookup args coins s) as H.
  rewrite Hg in H. tauto.
Qed.

(** X2. The third field of a group is decided by the script's last output
    in the snapshot: it equals the qualifying count when that output
    qualifies and the qualifying count plus one when it does not. *)
Theorem group_third_field (args : Args) (coins : list Coin)
  (s : string) (g : Group) (c0 : Coin) :
  dict_get s (group_coins args coins) = Some g ->
  g2 g = (Z.of_nat (List.length (qualifying_outputs args s coins))
          + if qualifies args (last (outputs_sharing s coins) c0)
            then 0 else 1)%Z.
Proof.
  intro Hg. pose proof (group_coins_lookup args coins s) as H.
  rewrite Hg in H. destruct H as [_ [H0 [_ H2]]].
  rewrite (H2 c0). now rewrite H0.
Qed.

Lemma outputs_sharing_in s coins c :
  In c (outputs_sharing s coins) <-> In c coins /\ scriptPubKey c = s.
Proof.
  unfold outputs_sharing. rewrite filter_In, String.eqb_eq. tauto.
Qed.

Lemma group_coin_keeps_nodup args d c :
  NoDup (dict_keys d) -> NoDup (dict_keys (group_coin args d c)).
Proof.
  intro H. unfold group_coin, dict_mem.
  destruct (dict_get (scriptPubKey c) d) as [g|] eqn:E.
  - rewrite E. destruct (qualifies args c); now apply dict_set_keeps_nodup.
  - rewrite dict_get_set_same.
    destruct (qualifies args c);
      repeat apply dict_set_keeps_nodup; exact H.
Qed.

Lemma group_coins_nodup args coins :
  NoDup (dict_keys (group_coins args coins)).
Proof.
  induction coins as [|c coins IH] using rev_ind; [constructor|].
  rewrite group_coins_snoc. now apply group_coin_keeps_nodup.
Qed.

(** X3. The groups are keyed by exactly the scripts that occur in the
    snapshot, each once. *)
Theorem group_keys (args : Args) (coins : list Coin) :
  NoDup (dict_keys (group_coins args coins))
  /\ forall s,
       In s (dict_keys (group_coins args coins))
       <-> exists c, In c coins /\ scriptPubKey c = s.
Proof.
  split; [apply group_coins_nodup|].
  intro s. rewrite <- dict_get_in_keys.
  pose proof (group_coins_lookup args coins s) as H.
  destruct (dict_get s (group_coins args coins)) as [g|].
  - destruct H as [Hne _]. split; [intros _|discriminate].
    destruct (outputs_sharing s coins) as [|c r] eqn:E; [congruence|].
    exists c. apply outputs_sharing_in. rewrite E. now left.
  - split; [congruence|]. intros [c Hc].
    apply outputs_sharing_in in Hc. rewrite H in Hc. destruct Hc.
Qed.

Lemma group_counts_and_totals_witness :
  dict_get "S" (group_coins default_args three_large) = Some (0%Z, 150, 1%Z)
  /\ g0 (0%Z, 150, 1%Z)
     = Z.of_nat (List.length (qualifying_outputs default_args "S" three_large))
  /\ g1 (0%Z, 150, 1%Z)
     == Qsum (map amount (outputs_sharing "S" three_large)).
Proof.
  split; [reflexivity|].
  exact (group_counts_and_totals default_args three_large "S"
           (0%Z, 150, 1%Z) eq_refl).
Defined.

Lemma group_third_field_witness :
  dict_get "S" (group_coins default_args three_large) = Some (0%Z, 150, 1%Z)
  /\ g2 (0%Z, 150, 1%Z)
     = (Z.of_nat (List.length (qualifying_outputs default_args "S" three_large))
        + if qualifies default_args
               (last (outputs_sharing "S" three_large) (coin_of "t" "S" 0%Q))
          then 0 else 1)%Z.
Proof.
  split; [reflexivity|].
  exact (group_third_field default_args three_large "S" (0%Z, 150, 1%Z)
           (coin_of "t" "S" 0%Q) eq_refl).
Defined.

(** ** When a pass stops *)

Lemma most_overused_in_keys scripts most :
  most_overused scripts = Some most -> In most (dict_keys scripts).
Proof.
  unfold most_overused, py_max.
  destruct scripts as [|best items]; [discriminate|].
  destruct (max_from_position items best)
    as [before [m [g [after [Hmax [Hpos _]]]]]].
  rewrite Hmax. simpl fst. intros [= <-].
  unfold dict_keys. rewrite Hpos, map_app. apply in_or_app. right. now left.
Qed.

Section Stopping.
Context {W : Type} {rpc : WalletRPC W}.

(** X4. A pass whose snapshot has no script with two or more qualifying
    outputs, an empty snapshot included, reports the wallet clean and ends
    the run without any further call: the stop test of line 108 reads the
    third field, which is then at most 2. *)
Theorem pass_stops_without_two_qualifying (fuel : nat) (args : Args)
  (p : Proc W) (coins : list Coin) (w : W) :
  listunspent 1 99999999 (world p) = (Returns coins, w) ->
  (forall s, (List.length (qualifying_outputs args s coins) <= 1)%nat) ->
  iteration fuel args p = Exited (report_clean (set_world w p)).
Proof.
  intros Hlist Hfew.
  destruct (most_overused (group_coins args coins)) as [most|] eqn:Hmost.
  - pose proof (most_overused_in_keys _ _ Hmost) as Hin.
    apply dict_get_in_keys in Hin.
    destruct (dict_get most (group_coins args coins)) as [g|] eqn:Hg;
      [|congruence].
    apply (iteration_gives_up fuel args p coins w most g Hlist Hmost Hg).
    pose proof (group_coins_lookup args coins most) as H.
    rewrite Hg in H. destruct H as [_ [H0 [_ H2]]].
    specialize (Hfew most). specialize (H2 (coin_of "" "" 0)).
    unfold gives_up. apply orb_true_iff. left. apply Z.ltb_lt.
    destruct (qualifies args _); lia.
  - unfold iteration. rewrite Hlist.
    unfold most_overused, py_max in Hmost.
    destruct (group_coins args coins); [reflexivity|discriminate].
Qed.

(** X5. If the selected inputs are worth no more than the fee, the
    splitting loop is skipped and the pass still asks the wallet to create,
    sign and send the transaction, with an empty payout mapping. *)
Theorem inputs_below_fee_sent_without_payout (fuel : nat) (args : Args)
  (p : Proc W) (coins : list Coin) (w : W) (most : string) (g : Group) :
  let scripts := group_coins args coins in
  let inputs := plan_inputs args coins scripts most in
  listunspent 1 99999999 (world p) = (Returns coins, w) ->
  most_overused scripts = Some most ->
  dict_get most scripts = Some g ->
  gives_up g = false ->
  fst inputs <= fee args ->
  iteration fuel args p
  = send_transaction args (snd inputs) [] (fst inputs)
      (announce_outputs (fst inputs) []
         (announce_inputs args coins scripts most (set_world w p))).
Proof.
  intros scripts inputs Hlist Hmost Hg Hup Hfee.
  unfold iteration. rewrite Hlist. fold scripts.
  destruct scripts as [|it rest] eqn:E; [discriminate|].
  simpl List.length. simpl Nat.eqb. rewrite Hmost, Hg, Hup.
  unfold build_plan. rewrite split_loop_stop by (fold inputs; lra).
  reflexivity.
Qed.
End Stopping.

(** X6. A selected group with three or more qualifying outputs, worth
    0.01 or more in all, is never given up on. *)
Theorem three_qualifying_outputs_go_on (args : Args) (coins : list Coin)
  (s : string) (g : Group) :
  dict_get s (group_coins args coins) = Some g ->
  (3 <= List.length (qualifying_outputs args s coins))%nat ->
  1 # 100 <= Qsum (map amount (outputs_sharing s coins)) ->
  gives_up g = false.
Proof.
  intros Hg Hthree Htotal.
  pose proof (group_coins_lookup args coins s) as H.
  rewrite Hg in H. destruct H as [_ [H0 [H1 H2]]].
  specialize (H2 (coin_of "" "" 0)).
  unfold gives_up. apply orb_false_iff. split.
  - apply Z.ltb_ge. destruct (qualifies args _); lia.
  - apply Qltb_ge. lra.
Qed.

(** ** Working set and input selection *)

Lemma use_script_members scripts acc k s :
  In s (use_script scripts acc k)
  <-> In s acc
      \/ (s = k /\ exists g, dict_get s scripts = Some g /\ g1 g < 1 # 10000).
Proof.
  unfold use_script.
  destruct (dict_get k scripts) as [g|] eqn:E.
  - destruct (Qltb (g1 g) (1 # 10000)) eqn:Ed; order_facts.
    + rewrite set_add_iff. split.
      * intros [->|H]; [right|left]; eauto.
      * intros [H|[-> _]]; auto.
    + split; [auto|]. intros [H|[-> [g' [Hg' Hd]]]]; [exact H|].
      rewrite E in Hg'. injection Hg' as <-. lra.
  - split; [auto|]. intros [H|[-> [g' [Hg' _]]]]; [exact H|congruence].
Qed.

Lemma fold_use_script_members scripts ks : forall acc s,
  In s (fold_left (use_script scripts) ks acc)
  <-> In s acc
      \/ (In s ks /\ exists g, dict_get s scripts = Some g /\ g1 g < 1 # 10000).
Proof.
  induction ks as [|k ks IH]; intros acc s; simpl; [tauto|].
  rewrite IH, use_script_members. split.
  - intros [[H|[-> H]]|[H1 H2]]; auto.
  - intros [H|[[<-|H1] H2]]; auto.
Qed.

Lemma fold_use_script_nodup scripts ks : forall acc,
  NoDup acc -> NoDup (fold_left (use_script scripts) ks acc).
Proof.
  induction ks as [|k ks IH]; intros acc H; simpl; [exact H|].
  apply IH. unfold use_script.
  destruct (dict_get k scripts) as [g|]; [|exact H].
  destruct (Qltb (g1 g) (1 # 10000)); [|exact H].
  now apply set_add_nodup.
Qed.

(** X7. The working set holds every script once; a script is in it exactly
    when it is the most-overused one or a script of the snapshot whose
    total amount is below 0.0001. *)
Theorem working_set_members (scripts : dict Group) (most s : string) :
  NoDup (working_set scripts most)
  /\ (In s (working_set scripts most)
      <-> s = most
          \/ exists g, dict_get s scripts = Some g /\ g1 g < 1 # 10000).
Proof.
  unfold working_set. split.
  - apply fold_use_script_nodup. repeat constructor. simpl. tauto.
  - rewrite fold_use_script_members. simpl. split.
    + intros [[<-|[]]|[_ H]]; auto.
    + intros [->|[g [Hg Hd]]]; [auto|].
      right. split; [|eauto].
      apply dict_get_in_keys. congruence.
Qed.

(** X8. The selected inputs are never more than [max_num_tx], and none when
    [max_num_tx] is zero or negative: the total input amount is then 0. *)
Theorem selected_inputs_capped (args : Args) (coins : list Coin)
  (scripts : dict Group) (most : string) :
  (Z.of_nat (List.length (snd (plan_inputs args coins scripts most)))
   <= Z.max 0 (max_num_tx args))%Z
  /\ ((max_num_tx args <= 0)%Z ->
      snd (plan_inputs args coins scripts most) = []
      /\ fst (plan_inputs args coins scripts most) == 0).
Proof.
  destruct (plan_inputs_selected args coins scripts most) as [Hin Hamt].
  unfold selected_coins in *. split.
  - rewrite Hin, length_map.
    pose proof (firstn_le_length (Z.to_nat (max_num_tx args))
                  (filter (in_use (working_set scripts most)) coins)).
    lia.
  - intro Hmax. rewrite Hin, Hamt.
    replace (Z.to_nat (max_num_tx args)) with 0%nat by lia.
    simpl. split; [reflexivity|lra].
Qed.

(** X9. When the outputs that pay a script of the working set are no more
    than [max_num_tx], all of them are selected, in the order of the
    snapshot, and the total input amount is the sum of their amounts. *)
Theorem all_matching_outputs_selected (args : Args) (coins : list Coin)
  (scripts : dict Group) (most : string) :
  let matching := filter (in_use (working_set scripts most)) coins in
  (Z.of_nat (List.length matching) <= max_num_tx args)%Z ->
  snd (plan_inputs args coins scripts most) = map txin_of matching
  /\ fst (plan_inputs args coins scripts most) == Qsum (map amount matching).
Proof.
  intros matching Hfit.
  destruct (plan_inputs_selected args coins scripts most) as [Hin Hamt].
  unfold selected_coins in *. fold matching in Hin, Hamt.
  rewrite firstn_all2 in Hin, Hamt by lia. auto.
Qed.

Lemma pass_stops_without_two_qualifying_witness :
  listunspent 1 99999999 (world (initial_state (wallet_listing [three_large])))
  = (Returns three_large, wallet_listing [])
  /\ (forall s,
        (List.length (qualifying_outputs default_args s three_large) <= 1)%nat)
  /\ iteration 0 default_args (initial_state (wallet_listing [three_large]))
     = Exited (report_clean
                 (set_world (wallet_listing [])
                    (initial_state (wallet_listing [three_large])))).
Proof.
  assert (Hfew : forall s,
             (List.length (qualifying_outputs default_args s three_large)
              <= 1)%nat).
  { intro s. unfold qualifying_outputs.
    transitivity (List.length (filter (qualifies default_args) three_large)).
    - unfold outputs_sharing.
      induction three_large as [|c r IH]; simpl; [lia|].
      destruct (String.eqb (scriptPubKey c) s); simpl;
        destruct (qualifies default_args c); simpl; lia.
    - vm_compute. lia. }
  split; [reflexivity|]. split; [exact Hfew|].
  exact (pass_stops_without_two_qualifying 0 default_args
           (initial_state (wallet_listing [three_large])) three_large
           (wallet_listing []) eq_refl Hfew).
Defined.

Lemma inputs_below_fee_sent_without_payout_witness :
  most_overused (group_coins args_fee_20 three_small) = Some "S"
  /\ gives_up (3%Z, 15, 3%Z) = false
  /\ fst (plan_inputs args_fee_20 three_small
            (group_coins args_fee_20 three_small) "S") <= fee args_fee_20
  /\ exists p',
       iteration 0 args_fee_20 (initial_state (wallet_listing [three_small]))
       = Done tt p'
       /\ transactions p' = ["T1"]
       /\ stdout p'
          = [PrintCreating 3 15; PrintScript "S" 3 15;
             PrintPaying 0 15; PrintBytes 2 15;
             PrintTransactionSent "T1"].
Proof.
  split; [reflexivity|]. split; [reflexivity|].
  assert (Hfee : fst (plan_inputs args_fee_20 three_small
                        (group_coins args_fee_20 three_small) "S")
                 <= fee args_fee_20) by (vm_compute; discriminate).
  split; [exact Hfee|].
  assert (Hlist : listunspent 1 99999999
                    (world (initial_state (wallet_listing [three_small])))
                  = (Returns three_small, wallet_listing []))
    by reflexivity.
  rewrite (inputs_below_fee_sent_without_payout 0 args_fee_20
             (initial_state (wallet_listing [three_small])) three_small
             (wallet_listing []) "S" (3%Z, 15, 3%Z)
             Hlist eq_refl eq_refl eq_refl Hfee).
  eexists. split; [vm_compute; reflexivity|]. split; reflexivity.
Defined.

Lemma three_qualifying_outputs_go_on_witness :
  dict_get "S" (group_coins default_args three_small) = Some (3%Z, 15, 3%Z)
  /\ gives_up (3%Z, 15, 3%Z) = false.
Proof.
  split; [reflexivity|].
  apply (three_qualifying_outputs_go_on default_args three_small "S");
    [reflexivity|vm_compute; lia|vm_compute; discriminate].
Defined.

Lemma all_matching_outputs_selected_witness :
  (Z.of_nat (List.length
               (filter (in_use (working_set
                                  (group_coins default_args three_small) "S"))
                  three_small)) <= max_num_tx default_args)%Z
  /\ snd (plan_inputs default_args three_small
            (group_coins default_args three_small) "S")
     = map txin_of three_small.
Proof.
  split; [vm_compute; discriminate|].
  exact (proj1 (all_matching_outputs_selected default_args three_small
                  (group_coins default_args three_small) "S"
                  ltac:(vm_compute; discriminate))).
Defined.

(** ** The payout mapping and the address requests *)

Lemma credit_get_same a x d :
  dict_get a (credit a x d)
  = Some (match dict_get a d with Some v => v | None => 0 end + x).
Proof.
  unfold credit, dict_mem.
  destruct (dict_get a d) as [v|] eqn:E.
  - rewrite E. apply dict_get_set_same.
  - rewrite dict_get_set_same. apply dict_get_set_same.
Qed.

Lemma credit_get_other a b x d :
  String.eqb b a = false -> dict_get b (credit a x d) = dict_get b d.
Proof.
  intro Hb. unfold credit, dict_mem.
  destruct (dict_get a d) as [v|] eqn:E.
  - rewrite E. now apply dict_get_set_other.
  - rewrite dict_get_set_same, !dict_get_set_other by exact Hb. reflexivity.
Qed.

Lemma credit_keeps_nodup a x d :
  NoDup (dict_keys d) -> NoDup (dict_keys (credit a x d)).
Proof.
  intro H. unfold credit, dict_mem.
  destruct (dict_get a d) as [v|] eqn:E.
  - rewrite E. now apply dict_set_keeps_nodup.
  - rewrite dict_get_set_same. now repeat apply dict_set_keeps_nodup.
Qed.

Lemma paid_to_snoc a b x l :
  paid_to a (l ++ [(b, x)])
  == paid_to a l + (if String.eqb b a then x else 0).
Proof.
  unfold paid_to. rewrite filter_app, map_app, Qsum_app. simpl.
  destruct (String.eqb b a); simpl; lra.
Qed.

Lemma paid_to_absent a l : ~ In a (map fst l) -> paid_to a l == 0.
Proof.
  unfold paid_to. induction l as [|[b x] r IH]; simpl; intro H; [lra|].
  destruct (String.eqb b a) eqn:E.
  - apply String.eqb_eq in E. tauto.
  - apply IH. tauto.
Qed.

Section Payouts.
Context {W : Type} {rpc : WalletRPC W}.

(** X10. With [max_amt_per_output] zero or negative and 10 or more above it
    to place, the splitting loop never ends, whatever number of passes it
    is given: each pass takes a chunk that is not positive, pays nothing
    and leaves [na] at least as large. *)
Theorem split_loop_never_ends (args : Args) (na : Decimal) :
  max_amt_per_output args <= 0 -> 0 < na ->
  10 <= na - max_amt_per_output args ->
  (forall q : Proc W, exists a q', next_addr args q = Done a q') ->
  forall fuel r (p : Proc W), split_loop fuel args na r p = OutOfFuel.
Proof.
  intros Hm Hna Hrest Hlookup fuel. revert na Hna Hrest.
  induction fuel as [|fuel IH]; intros na Hna Hrest r p.
  - simpl. apply Qltb_lt in Hna. now rewrite Hna.
  - rewrite split_loop_body by assumption.
    destruct (Hlookup p) as [a [p1 ->]].
    destruct (chunk_cases args na) as [[_ [H|[_ H]]]|[E _]]; try lra.
    rewrite E. apply IH; lra.
Qed.

(** X11. When the loop has ended, the payout mapping has one key per
    address paid, and the value of each is the sum of the chunks paid to
    it: chunks to a repeated address accumulate. *)
Theorem payouts_accumulate (fuel : nat) (args : Args) (na : Decimal)
  (p : Proc W) (r : Split) (p' : Proc W) :
  split_loop fuel args na empty_split p = Done r p' ->
  NoDup (dict_keys (out r))
  /\ forall a,
       match dict_get a (out r) with
       | Some v => In a (map fst (payments r)) /\ v == paid_to a (payments r)
       | None => ~ In a (map fst (payments r))
       end.
Proof.
  intro Hrun.
  set (P := fun (_ : Decimal) (s : Split) (_ : Proc W) =>
       NoDup (dict_keys (out s))
       /\ forall a,
            match dict_get a (out s) with
            | Some v =>
                In a (map fst (payments s)) /\ v == paid_to a (payments s)
            | None => ~ In a (map fst (payments s))
            end).
  assert (step : forall n s q b q',
             0 < n -> P n s q -> next_addr args q = Done b q' ->
             0 < chunk args n -> P (n - chunk args n) (paid args n b s) q').
  { intros n s q b q' _ [Hnd Hacc] _ _. unfold P, paid. simpl.
    split; [now apply credit_keeps_nodup|].
    intro a. rewrite map_app. simpl.
    destruct (String.eqb a b) eqn:E.
    - apply String.eqb_eq in E. subst b.
      rewrite credit_get_same. split; [apply in_or_app; right; now left|].
      rewrite paid_to_snoc, String.eqb_refl.
      specialize (Hacc a). destruct (dict_get a (out s)) as [v|].
      + destruct Hacc as [_ Hv]. rewrite Hv. lra.
      + rewrite (paid_to_absent _ _ Hacc). lra.
    - rewrite credit_get_other by exact E.
      specialize (Hacc a).
      assert (Eba : String.eqb b a = false)
        by (rewrite String.eqb_sym; exact E).
      destruct (dict_get a (out s)) as [v|].
      + destruct Hacc as [Hin Hv].
        split; [apply in_or_app; now left|].
        rewrite paid_to_snoc, Eba, Hv. lra.
      + intro Hin. apply in_app_or in Hin.
        destruct Hin as [Hin|[Hin|[]]]; [tauto|].
        simpl in Hin. subst b. rewrite String.eqb_refl in E. discriminate.
  }
  destruct (split_loop_invariant args P step _ _ _ _ _ _ Hrun)
    as [n [_ HP]]; [|exact HP].
  split; [constructor|]. intro a. simpl. tauto.
Qed.

Lemma new_addresses_snoc n : forall (w : W) l w1 a w2,
  new_addresses n w = Some (l, w1) ->
  getnewaddress "consolidate" w1 = (Returns a, w2) ->
  new_addresses (S n) w = Some (l ++ [a], w2).
Proof.
  induction n as [|n IH]; intros w l w1 a w2 Hn Hget.
  - injection Hn as <- <-. simpl. now rewrite Hget.
  - simpl in Hn.
    destruct (getnewaddress "consolidate" w) as [[b|e] w'] eqn:Hb;
      [|discriminate].
    destruct (new_addresses n w') as [[rest w'']|] eqn:Hrest; [|discriminate].
    injection Hn as <- <-.
    change (new_addresses (S (S n)) w)
      with (match getnewaddress "consolidate" w with
            | (Returns a, w') =>
                match new_addresses (S n) w' with
                | Some (rest, w'') => Some (a :: rest, w'')
                | None => None
                end
            | (Fails _, _) => None
            end).
    rewrite Hb, (IH _ _ _ _ _ Hrest Hget). reflexivity.
Qed.

(** X12. Without [--reuse] and without an explicit destination, a loop that
    has ended has called [getnewaddress] exactly once per pass, made no
    other call, and paid the chunk of pass [i] to the address answered by
    call [i]. *)
Theorem fresh_address_per_chunk (fuel : nat) (args : Args) (na : Decimal)
  (p : Proc W) (r : Split) (p' : Proc W) :
  reuse args = false -> address args = None ->
  split_loop fuel args na empty_split p = Done r p' ->
  new_addresses (iterations r) (world p)
  = Some (map fst (payments r), world p')
  /\ List.length (payments r) = iterations r.
Proof.
  intros Hreuse Haddress Hrun.
  set (P := fun (_ : Decimal) (s : Split) (q : Proc W) =>
       new_addresses (iterations s) (world p)
       = Some (map fst (payments s), world q)
       /\ List.length (payments s) = iterations s).
  assert (step : forall n s q b q',
             0 < n -> P n s q -> next_addr args q = Done b q' ->
             0 < chunk args n -> P (n - chunk args n) (paid args n b s) q').
  { intros n s q b q' _ [Hreq Hlen] Hb _. unfold P, paid. simpl.
    unfold next_addr in Hb. rewrite Haddress, Hreuse in Hb. simpl in Hb.
    destruct (getnewaddress "consolidate" (world q)) as [[c|e] w'] eqn:Hget;
      [|discriminate].
    injection Hb as <- <-. simpl.
    rewrite map_app, length_app. simpl.
    split; [|lia]. eapply new_addresses_snoc; eauto. }
  destruct (split_loop_invariant args P step _ _ _ _ _ _ Hrun)
    as [n [_ HP]]; [|exact HP].
  split; reflexivity.
Qed.

(** X13. With an explicit destination the splitting loop calls nothing on
    the wallet and prints nothing: it leaves the world, the run log and
    the output as they were, and every chunk is paid to that address. *)
Theorem explicit_address_asks_nothing (fuel : nat) (args : Args)
  (a : string) (na : Decimal) (p : Proc W) (r : Split) (p' : Proc W) :
  address args = Some a ->
  split_loop fuel args na empty_split p = Done r p' ->
  world p' = world p
  /\ transactions p' = transactions p
  /\ stdout p' = stdout p
  /\ Forall (fun pm => fst pm = a) (payments r).
Proof.
  intros Ha Hrun.
  set (P := fun (_ : Decimal) (s : Split) (q : Proc W) =>
       world q = world p /\ transactions q = transactions p
       /\ stdout q = stdout p /\ Forall (fun pm => fst pm = a) (payments s)).
  assert (step : forall n s q b q',
             0 < n -> P n s q -> next_addr args q = Done b q' ->
             0 < chunk args n -> P (n - chunk args n) (paid args n b s) q').
  { intros n s q b q' _ [Hw [Ht [Ho Hp]]] Hb _.
    rewrite (next_addr_explicit _ _ _ Ha) in Hb. injection Hb as <- <-.
    unfold P, paid. simpl. repeat split; try assumption.
    apply Forall_app. split; [exact Hp|]. now repeat constructor. }
  destruct (split_loop_invariant args P step _ _ _ _ _ _ Hrun)
    as [n [_ HP]]; [|exact HP].
  unfold P. simpl. repeat split. constructor.
Qed.
End Payouts.

Lemma split_loop_never_ends_witness :
  max_amt_per_output args_zero_output <= 0 /\ 0 < 25
  /\ 10 <= 25 - max_amt_per_output args_zero_output
  /\ split_loop 1000 args_zero_output 25 empty_split
       (initial_state (wallet_listing [])) = OutOfFuel.
Proof.
  split; [vm_compute; discriminate|]. split; [reflexivity|].
  split; [vm_compute; discriminate|].
  apply (split_loop_never_ends args_zero_output 25);
    [vm_compute; discriminate|reflexivity|vm_compute; discriminate|].
  intro q. rewrite (next_addr_explicit args_zero_output "X" q eq_refl). eauto.
Defined.

Lemma payouts_accumulate_witness :
  exists r p',
    split_loop 2 (with_address "X" args_10) 25 empty_split
      (initial_state (wallet_listing [])) = Done r p'
    /\ NoDup (dict_keys (out r))
    /\ forall a,
         match dict_get a (out r) with
         | Some v => In a (map fst (payments r)) /\ v == paid_to a (payments r)
         | None => ~ In a (map fst (payments r))
         end.
Proof.
  destruct (split_loop 2 (with_address "X" args_10) 25 empty_split
              (initial_state (wallet_listing [])))
    as [r p'|e p'|p'|] eqn:Hrun; [|vm_compute in Hrun; discriminate ..].
  exists r, p'. split; [reflexivity|].
  exact (payouts_accumulate 2 (with_address "X" args_10) 25
           (initial_state (wallet_listing [])) r p' Hrun).
Defined.

Lemma fresh_address_per_chunk_witness :
  exists r p',
    reuse args_10 = false /\ address args_10 = None
    /\ split_loop 2 args_10 25 empty_split
         (initial_state (wallet_listing [])) = Done r p'
    /\ new_addresses (iterations r) (world (initial_state (wallet_listing [])))
       = Some (map fst (payments r), world p').
Proof.
  destruct (split_loop 2 args_10 25 empty_split
              (initial_state (wallet_listing [])))
    as [r p'|e p'|p'|] eqn:Hrun; [|vm_compute in Hrun; discriminate ..].
  exists r, p'. split; [reflexivity|]. split; [reflexivity|].
  split; [reflexivity|].
  exact (proj1 (fresh_address_per_chunk 2 args_10 25
                  (initial_state (wallet_listing [])) r p'
                  eq_refl eq_refl Hrun)).
Defined.

Lemma explicit_address_asks_nothing_witness :
  exists r p',
    address (with_address "X" args_10) = Some "X"
    /\ split_loop 2 (with_address "X" args_10) 25 empty_split
         (initial_state (wallet_listing [])) = Done r p'
    /\ world p' = world (initial_state (wallet_listing [])).
Proof.
  destruct (split_loop 2 (with_address "X" args_10) 25 empty_split
              (initial_state (wallet_listing [])))
    as [r p'|e p'|p'|] eqn:Hrun; [|vm_compute in Hrun; discriminate ..].
  exists r, p'. split; [reflexivity|]. split; [reflexivity|].
  exact (proj1 (explicit_address_asks_nothing 2 (with_address "X" args_10)
                  "X" 25 (initial_state (wallet_listing [])) r p'
                  eq_refl Hrun)).
Defined.

(** ** What a run prints and logs *)

Section RunEffects.
Context {W : Type} {rpc : WalletRPC W}.


Lemma effect_trans args (p p1 p2 : Proc W) ts1 ts2 :
  effect args p p1 ts1 -> effect args p1 p2 ts2 ->
  effect args p p2 (ts1 ++ ts2).
Proof.
  intros [es1 [Ho1 [Ht1 [Hl1 Hg1]]]] [es2 [Ho2 [Ht2 [Hl2 Hg2]]]].
  exists (es1 ++ es2). rewrite Ho2, Ho1, Ht2, Ht1, !app_assoc.
  split; [reflexivity|]. split; [reflexivity|]. split.
  - intros t Ht. apply in_or_app. apply in_app_or in Ht.
    destruct Ht; [left|right]; auto.
  - intro H. destruct (Hg1 H) as [F1 G1]. destruct (Hg2 G1) as [F2 G2].
    split; [apply Forall_app; auto|exact G2].
Qed.

(** Printing expected lines, changing the world and binding nothing. *)
Lemma effect_print args (p p' : Proc W) es :
  stdout p' = stdout p ++ es -> transactions p' = transactions p ->
  addr p' = addr p -> Forall (expected_event args) es ->
  effect args p p' [].
Proof.
  intros Ho Ht Ha F. exists es. rewrite Ho, Ht, app_nil_r.
  split; [reflexivity|]. split; [reflexivity|]. split; [intros t []|].
  intro H. split; [exact F|].
  unfold unbound_in_reuse in *. rewrite Ha. exact H.
Qed.

Lemma next_addr_final args (p p1 : Proc W) :
  final (next_addr args p) = Some p1 ->
  stdout p1 = stdout p /\ transactions p1 = transactions p.
Proof.
  unfold next_addr.
  destruct (address args); [intros [= <-]; auto|].
  destruct (reuse args); simpl.
  - destruct (addr p); intros [= <-]; auto.
  - destruct (getnewaddress "consolidate" (world p)) as [[a|e] w];
      intros [= <-]; auto.
Qed.

Lemma split_loop_final args fuel : forall na r (p p' : Proc W),
  final (split_loop fuel args na r p) = Some p' ->
  stdout p' = stdout p /\ transactions p' = transactions p.
Proof.
  induction fuel as [|fuel IH]; intros na r p p'.
  - simpl. destruct (Qltb 0 na); [discriminate|]. intros [= <-]. auto.
  - destruct (Qlt_le_dec 0 na) as [Hpos|Hneg].
    + rewrite split_loop_body by assumption.
      pose proof (next_addr_final args p) as Hn.
      destruct (next_addr args p) as [a p1|e p1|p1|]; simpl in *.
      * intro H. destruct (IH _ _ _ _ H) as [Ho Ht].
        destruct (Hn p1 eq_refl) as [Ho1 Ht1]. split; congruence.
      * intros [= <-]. now apply Hn.
      * intros [= <-]. now apply Hn.
      * discriminate.
    + rewrite split_loop_stop by assumption. intros [= <-]. auto.
Qed.

(** In reuse mode with [addr] unbound the loop can only stop at once or
    raise: it changes nothing. *)
Lemma split_loop_unbound args fuel na r (p : Proc W) :
  reuse args = true -> address args = None -> addr p = None ->
  split_loop fuel args na r p = Done r p
  \/ split_loop fuel args na r p = Raised (NameError "addr") p
  \/ split_loop fuel args na r p = OutOfFuel.
Proof.
  intros Hr Ha Hu. destruct (Qlt_le_dec 0 na) as [Hpos|Hneg].
  - destruct fuel as [|fuel].
    + right. right. simpl. apply Qltb_lt in Hpos. now rewrite Hpos.
    + right. left. rewrite split_loop_body by assumption.
      unfold next_addr. now rewrite Ha, Hr, Hu.
  - left. now apply split_loop_stop.
Qed.

(** The payee lines of a finished split are expected lines. *)
Lemma split_loop_payees args fuel na (p : Proc W) r p' :
  unbound_in_reuse args p ->
  split_loop fuel args na empty_split p = Done r p' ->
  Forall (expected_event args)
    (map (fun o => PrintPayee (fst o) (snd o)) (out r))
  /\ unbound_in_reuse args p'.
Proof.
  intros Hg Hrun. unfold unbound_in_reuse in *.
  destruct (address args) as [a|] eqn:Ha.
  - split; [|discriminate].
    destruct (Qlt_le_dec 0 na) as [Hpos|Hneg].
    + destruct (split_loop_explicit _ _ _ _ _ _ _ Ha Hrun Hpos) as [v [-> _]].
      repeat constructor. simpl. now rewrite Ha.
    + rewrite split_loop_stop in Hrun by assumption.
      injection Hrun as <- <-. constructor.
  - destruct (reuse args) eqn:Hr.
    + specialize (Hg eq_refl eq_refl).
      destruct (split_loop_unbound args fuel na empty_split p Hr Ha Hg)
        as [E|[E|E]]; rewrite E in Hrun; try discriminate.
      injection Hrun as <- <-. split; [constructor|auto].
    + split; [|discriminate].
      apply Forall_forall. intros e He. apply in_map_iff in He.
      destruct He as [o [<- _]]. simpl. now rewrite Ha.
Qed.

Lemma split_loop_never_exits args fuel : forall na r (p p' : Proc W),
  split_loop fuel args na r p <> Exited p'.
Proof.
  induction fuel as [|fuel IH]; intros na r p p'; simpl.
  - destruct (Qltb 0 na); discriminate.
  - destruct (Qltb 0 na); [|discriminate].
    destruct (next_addr_ends args p) as [[a [q' ->]]|[e [q' ->]]];
      [apply IH|discriminate].
Qed.

Lemma build_plan_effect fuel args coins scripts most (p : Proc W) :
  match build_plan fuel args coins scripts most p with
  | Done _ p' => effect args p p' []
  | Raised _ p' => effect args p p' []
  | Exited p' => effect args p p' []
  | OutOfFuel => True
  end.
Proof.
  assert (Hin : effect args p (announce_inputs args coins scripts most p) []).
  { unfold announce_inputs.
    destruct (plan_inputs args coins scripts most) as [amt txouts].
    eapply effect_print; simpl; try reflexivity.
    - rewrite <- app_assoc. reflexivity.
    - apply Forall_app. split; [repeat constructor|].
      apply Forall_forall. intros e He. apply in_map_iff in He.
      destruct He as [s [<- _]]. now destruct (dict_get s scripts). }
  unfold build_plan.
  set (q := announce_inputs args coins scripts most p) in *.
  set (na := fst (plan_inputs args coins scripts most) - fee args).
  pose proof (split_loop_final args fuel na empty_split q) as Hf.
  destruct (split_loop fuel args na empty_split q) as [r p1|e p1|p1|] eqn:Hrun;
    try exact I.
  - destruct (Hf p1 eq_refl) as [Ho Ht].
    change [] with (@nil string ++ []). eapply effect_trans; [exact Hin|].
    unfold announce_outputs.
    exists ([PrintPaying (Qsum (dict_values (out r)))
               (fst (plan_inputs args coins scripts most)
                - Qsum (dict_values (out r)))]
            ++ map (fun o => PrintPayee (fst o) (snd o)) (out r)).
    simpl stdout. simpl transactions.
    rewrite Ho, Ht, app_nil_r, <- app_assoc.
    split; [reflexivity|]. split; [reflexivity|]. split; [intros t []|].
    intro H.
    destruct (split_loop_payees args fuel na q r p1 H Hrun) as [F G].
    split; [|exact G].
    apply Forall_app. split; [repeat constructor|exact F].
  - destruct (Hf p1 eq_refl) as [Ho Ht].
    change [] with (@nil string ++ []). eapply effect_trans; [exact Hin|].
    exists []. rewrite Ho, Ht, !app_nil_r.
    split; [reflexivity|]. split; [reflexivity|]. split; [intros t []|].
    intro H. split; [constructor|].
    unfold unbound_in_reuse in *. intros Hr Ha.
    destruct (split_loop_unbound args fuel na empty_split q Hr Ha (H Hr Ha))
      as [E|[E|E]]; rewrite E in Hrun; try discriminate.
    injection Hrun as _ <-. auto.
  - exfalso. exact (split_loop_never_exits _ _ _ _ _ _ Hrun).
Qed.

Lemma send_transaction_effect args txouts o amt (p : Proc W) :
  match send_transaction args txouts o amt p with
  | Done _ p' => exists t, effect args p p' [t]
  | Exited p' => effect args p p' []
  | Raised _ _ => False
  | OutOfFuel => False
  end.
Proof.
  unfold send_transaction, ask.
  destruct (createrawtransaction txouts o (world p)) as [[txn|e] w1].
  2: { eapply effect_print; simpl; try reflexivity. repeat constructor. }
  destruct (auto args) eqn:Hauto; simpl.
  - destruct (signrawtransaction txn w1) as [[hex|e] w2]; simpl.
    2: { eapply effect_print; simpl; try reflexivity. repeat constructor. }
    destruct (sendrawtransaction hex w2) as [[t|e] w3]; simpl.
    2: { eapply effect_print; simpl; try reflexivity;
           [rewrite <- app_assoc; reflexivity|repeat constructor]. }
    exists t. eexists. simpl. rewrite <- !app_assoc. simpl.
    split; [reflexivity|]. split; [reflexivity|].
    split; [intros t' [<-|[]]; simpl; auto|].
    intro H. split; [repeat constructor|exact H].
  - destruct (input "Sign the transaction? [y]/n: " w1) as [[a|e] w2]; simpl.
    2: { eapply effect_print; simpl; try reflexivity;
           [rewrite <- app_assoc; reflexivity|repeat constructor; exact Hauto]. }
    destruct (declined a); simpl.
    { eapply effect_print; simpl; try reflexivity.
      repeat constructor. exact Hauto. }
    destruct (signrawtransaction txn w2) as [[hex|e] w3]; simpl.
    2: { eapply effect_print; simpl; try reflexivity;
           [rewrite <- app_assoc; reflexivity|repeat constructor; exact Hauto]. }
    destruct (input "Send the transaction? [y]/n: " w3) as [[b|e] w4]; simpl.
    2: { eapply effect_print; simpl; try reflexivity;
           [rewrite <- !app_assoc; reflexivity
           |repeat constructor; exact Hauto]. }
    destruct (declined b); simpl.
    { eapply effect_print; simpl; try reflexivity;
        [rewrite <- !app_assoc; reflexivity|repeat constructor; exact Hauto]. }
    destruct (sendrawtransaction hex w4) as [[t|e] w5]; simpl.
    2: { eapply effect_print; simpl; try reflexivity;
           [rewrite <- !app_assoc; reflexivity
           |repeat constructor; exact Hauto]. }
    exists t. eexists. simpl. rewrite <- !app_assoc. simpl.
    split; [reflexivity|]. split; [reflexivity|].
    split; [intros t' [<-|[]]; simpl; auto 10|].
    intro H. split; [repeat constructor; exact Hauto|exact H].
Qed.

Lemma report_clean_effect args (p : Proc W) : effect args p (report_clean p) [].
Proof.
  unfold report_clean.
  destruct (List.length (transactions p) =? 0)%nat;
    eapply effect_print; simpl; try reflexivity; repeat constructor.
Qed.

Lemma set_world_effect args w (p : Proc W) : effect args p (set_world w p) [].
Proof.
  eapply (effect_print args p (set_world w p) []); simpl;
    rewrite ?app_nil_r; auto.
Qed.

(** A pass that goes round again has broadcast exactly one transaction; a
    pass that ends the run has broadcast none. *)
Lemma iteration_effect fuel args (p : Proc W) :
  match iteration fuel args p with
  | Done _ p' => exists t, effect args p p' [t]
  | Raised _ p' => effect args p p' []
  | Exited p' => effect args p p' []
  | OutOfFuel => True
  end.
Proof.
  unfold iteration.
  destruct (listunspent 1 99999999 (world p)) as [[coins|e] w].
  2: { eapply effect_print; simpl; try reflexivity. repeat constructor. }
  pose proof (set_world_effect args w p) as Hw.
  set (q := set_world w p) in *.
  assert (Hclean : effect args p (report_clean q) []).
  { change [] with (@nil string ++ []).
    eapply effect_trans; [exact Hw|apply report_clean_effect]. }
  destruct (List.length (group_coins args coins) =? 0)%nat; [exact Hclean|].
  destruct (most_overused (group_coins args coins)) as [most|]; [|exact Hw].
  destruct (dict_get most (group_coins args coins)) as [g|]; [|exact Hw].
  destruct (gives_up g); [exact Hclean|].
  pose proof (build_plan_effect fuel args coins (group_coins args coins)
                most q) as Hb.
  destruct (build_plan fuel args coins (group_coins args coins) most q)
    as [plan p1|e p1|p1|]; try exact I;
    try (change [] with (@nil string ++ []);
         eapply effect_trans; [exact Hw|exact Hb]).
  pose proof (send_transaction_effect args (plan_txouts plan)
                (out (plan_split plan)) (plan_amt plan) p1) as Hs.
  destruct (send_transaction args (plan_txouts plan) (out (plan_split plan))
              (plan_amt plan) p1) as [u p2|e p2|p2|]; try contradiction.
  - destruct Hs as [t Hs]. exists t.
    change [t] with (@nil string ++ [] ++ [t]).
    eapply effect_trans; [exact Hw|]. eapply effect_trans; eauto.
  - change [] with (@nil string ++ [] ++ []).
    eapply effect_trans; [exact Hw|]. eapply effect_trans; eauto.
Qed.

Lemma main_loop_effect rounds fuel args : forall (p p' : Proc W),
  final (main_loop rounds fuel args p) = Some p' ->
  exists ts, effect args p p' ts /\ (List.length ts < rounds)%nat.
Proof.
  induction rounds as [|rounds IH]; intros p p'; simpl; [discriminate|].
  pose proof (iteration_effect fuel args p) as Hi.
  destruct (iteration fuel args p) as [u p1|e p1|p1|]; simpl.
  - intro H. destruct (IH _ _ H) as [ts [He Hl]]. destruct Hi as [t Hi].
    exists ([t] ++ ts). split; [eapply effect_trans; eauto|simpl; lia].
  - intros [= <-]. exists []. split; [exact Hi|simpl; lia].
  - intros [= <-]. exists []. split; [exact Hi|simpl; lia].
  - discriminate.
Qed.
End RunEffects.

Section Runs.
Context {W : Type} {rpc : WalletRPC W}.

Lemma initial_state_unbound args (w : W) :
  unbound_in_reuse args (initial_state w).
Proof. intros _ _. reflexivity. Qed.

(** What a run from the start has printed: only expected lines. *)
Lemma run_output rounds fuel args (w : W) p' :
  final (main_loop rounds fuel args (initial_state w)) = Some p' ->
  Forall (expected_event args) (stdout p')
  /\ unbound_in_reuse args p'
  /\ (forall t, In t (transactions p') -> In (PrintTransactionSent t) (stdout p'))
  /\ (List.length (transactions p') < rounds)%nat.
Proof.
  intro H. destruct (main_loop_effect _ _ _ _ _ H) as [ts [[es He] Hl]].
  destruct He as [Ho [Ht [Hs Hg]]]. simpl in Ho, Ht. subst es.
  rewrite Ht. destruct (Hg (initial_state_unbound args w)) as [F G].
  auto.
Qed.


(** X15. A pass of the loop that goes round again has broadcast exactly one
    transaction and logged it; a pass that ends the run, by [sys.exit()] or
    by an exception, leaves the run log as it found it. *)
Theorem pass_sends_one_or_none (fuel : nat) (args : Args) (p : Proc W) :
  match iteration fuel args p with
  | Done _ p' =>
      exists t, transactions p' = transactions p ++ [t]
                /\ exists before after,
                     stdout p' = stdout p ++ before
                                 ++ PrintTransactionSent t :: after
  | Raised _ p' => transactions p' = transactions p
  | Exited p' => transactions p' = transactions p
  | OutOfFuel => True
  end.
Proof.
  pose proof (iteration_effect fuel args p) as H.
  destruct (iteration fuel args p) as [u p'|e p'|p'|]; try exact H.
  - destruct H as [t [es [Ho [Ht [Hs _]]]]]. exists t. split; [exact Ht|].
    destruct (in_split _ _ (Hs t (or_introl eq_refl))) as [b [a ->]]. eauto.
  - destruct H as [es [_ [Ht _]]]. now rewrite app_nil_r in Ht.
  - destruct H as [es [_ [Ht _]]]. now rewrite app_nil_r in Ht.
Qed.

(** X16. In unattended mode no run ever prompts. *)
Theorem unattended_run_never_prompts (rounds fuel : nat) (args : Args)
  (w : W) (p' : Proc W) (question : string) :
  auto args = true ->
  final (main_loop rounds fuel args (initial_state w)) = Some p' ->
  ~ In (Prompt question) (stdout p').
Proof.
  intros Hauto H Hin. destruct (run_output _ _ _ _ _ H) as [F _].
  rewrite Forall_forall in F. specialize (F _ Hin). simpl in F. congruence.
Qed.

(** X17. With an explicit destination every payee line of a run names that
    address: no pass plans a payment to any other. *)
Theorem explicit_address_only_payee (rounds fuel : nat) (args : Args)
  (a : string) (w : W) (p' : Proc W) (x : string) (v : Decimal) :
  address args = Some a ->
  final (main_loop rounds fuel args (initial_state w)) = Some p' ->
  In (PrintPayee x v) (stdout p') -> x = a.
Proof.
  intros Ha H Hin. destruct (run_output _ _ _ _ _ H) as [F _].
  rewrite Forall_forall in F. specialize (F _ Hin). simpl in F.
  now rewrite Ha in F.
Qed.

(** X18. In reuse mode without an explicit destination no run ever plans a
    payment: [addr] is never bound and no payee line is printed, in any
    pass. *)
Theorem reuse_mode_never_pays (rounds fuel : nat) (args : Args)
  (w : W) (p' : Proc W) :
  reuse args = true -> address args = None ->
  final (main_loop rounds fuel args (initial_state w)) = Some p' ->
  addr p' = None /\ forall x v, ~ In (PrintPayee x v) (stdout p').
Proof.
  intros Hr Ha H. destruct (run_output _ _ _ _ _ H) as [F [G _]].
  split; [exact (G Hr Ha)|].
  intros x v Hin. rewrite Forall_forall in F. specialize (F _ Hin).
  simpl in F. rewrite Ha in F. congruence.
Qed.

(** X19. Whenever a run ends, every transaction identifier of its run log
    has its own line in the output, and the run log holds fewer
    identifiers than the loop made passes. *)
Theorem run_log_announced (rounds fuel : nat) (args : Args)
  (w : W) (p' : Proc W) :
  final (main_loop rounds fuel args (initial_state w)) = Some p' ->
  (forall t, In t (transactions p') -> In (PrintTransactionSent t) (stdout p'))
  /\ (List.length (transactions p') < rounds)%nat.
Proof.
  intro H. destruct (run_output _ _ _ _ _ H) as [_ [_ HG]]. exact HG.
Qed.
End Runs.

(** ** Start-up *)

Section StartupChecks.
Context {W : Type} {startup : StartupRPC W} {rpc : WalletRPC W}.

Lemma check_wallet_done (w w' : W) u lines :
  check_wallet w = Done u (w', lines) ->
  exists unlocked_until,
    getwalletinfo w = (Returns unlocked_until, w')
    /\ unlocked_until <> Some 0%Z.
Proof.
  unfold check_wallet.
  destruct (getwalletinfo w) as [[[z|]|e] w1]; try discriminate.
  - destruct z; try discriminate; intros [= _ <- _]; eexists;
      (split; [reflexivity|discriminate]).
  - intros [= _ <- _]. eexists. split; [reflexivity|discriminate].
Qed.

(** What start-up has found when it lets the loop begin. *)
Lemma preflight_done args (w w' : W) u lines :
  preflight args w = Done u (w', lines) ->
  exists w1 w2 unlocked_until,
    getblockchaininfo w = (Returns tt, w1)
    /\ match address args with
       | Some a =>
           exists info,
             validateaddress a w1 = (Returns info, w2)
             /\ isvalid info = true /\ ismine info = Some true
       | None => w2 = w1
       end
    /\ getwalletinfo w2 = (Returns unlocked_until, w')
    /\ unlocked_until <> Some 0%Z.
Proof.
  unfold preflight.
  destruct (getblockchaininfo w) as [[[]|e] w1]; [|discriminate].
  destruct (address args) as [a|].
  - destruct (validateaddress a w1) as [[info|e] w2] eqn:Hv; [|discriminate].
    destruct (isvalid info) eqn:Hvalid; simpl; [|discriminate].
    destruct (ismine info) as [[|]|] eqn:Hmine; try discriminate.
    intro H. destruct (check_wallet_done _ _ _ _ H) as [un [Hw Hu]].
    exists w1, w2, un. repeat split; eauto.
  - intro H. destruct (check_wallet_done _ _ _ _ H) as [un [Hw Hu]].
    exists w1, w1, un. repeat split; eauto.
Qed.

(** X20. The loop begins only after start-up has passed: the first call
    answered, an explicit destination was reported valid and owned by the
    wallet, and the wallet did not report [unlocked_until] 0.  The loop
    then starts from the world those calls left, with an empty run log,
    no output and [addr] unbound. *)
Theorem loop_begins_after_checks (rounds fuel : nat) (rpc_server : string)
  (args : Args) (w : W) (lines : list startup_event)
  (o : outcome (Proc W) unit) :
  program rounds fuel rpc_server args w = (lines, Some o) ->
  exists w1 w2 w3 unlocked_until,
    getblockchaininfo w = (Returns tt, w1)
    /\ match address args with
       | Some a =>
           exists info,
             validateaddress a w1 = (Returns info, w2)
             /\ isvalid info = true /\ ismine info = Some true
       | None => w2 = w1
       end
    /\ getwalletinfo w2 = (Returns unlocked_until, w3)
    /\ unlocked_until <> Some 0%Z
    /\ o = main_loop rounds fuel args (initial_state w3).
Proof.
  unfold program.
  destruct (preflight args w) as [u [w3 ls]|e [w3 ls]|[w3 ls]|] eqn:Hp;
    try discriminate.
  intros [= _ <-].
  destruct (preflight_done _ _ _ _ _ Hp) as [w1 [w2 [un [H1 [H2 [H3 H4]]]]]].
  exists w1, w2, w3, un. auto.
Qed.

(** X21. With an explicit destination, a payee line in the output of the
    program names that destination, and the wallet had reported it valid
    and its own before the loop began. *)
Theorem program_pays_only_validated (rounds fuel : nat) (rpc_server : string)
  (args : Args) (a : string) (w : W) (lines : list startup_event)
  (o : outcome (Proc W) unit) (p' : Proc W) (x : string) (v : Decimal) :
  address args = Some a ->
  program rounds fuel rpc_server args w = (lines, Some o) ->
  final o = Some p' ->
  In (PrintPayee x v) (stdout p') ->
  x = a
  /\ exists w1 w2 info,
       getblockchaininfo w = (Returns tt, w1)
       /\ validateaddress a w1 = (Returns info, w2)
       /\ isvalid info = true /\ ismine info = Some true.
Proof.
  intros Ha Hprog Hfinal Hin. unfold program in Hprog.
  destruct (preflight args w) as [u [w3 ls]|e [w3 ls]|[w3 ls]|] eqn:Hp;
    try discriminate.
  injection Hprog as _ <-.
  destruct (preflight_done _ _ _ _ _ Hp) as [w1 [w2 [un [H1 [H2 _]]]]].
  rewrite Ha in H2. destruct H2 as [info [Hv [Hvalid Hmine]]].
  split; [|eauto 10].
  destruct (run_output _ _ _ _ _ Hfinal) as [F _].
  rewrite Forall_forall in F. specialize (F _ Hin). simpl in F.
  now rewrite Ha in F.
Qed.
End StartupChecks.

(** ** Instances of the run properties *)

Lemma unattended_run_never_prompts_witness :
  exists p',
    auto default_args = true
    /\ final (main_loop 2 1 default_args
                (initial_state (wallet_listing [three_small]))) = Some p'
    /\ ~ In (Prompt "Sign the transaction? [y]/n: ") (stdout p').
Proof.
  destruct (final (main_loop 2 1 default_args
                     (initial_state (wallet_listing [three_small]))))
    as [p'|] eqn:H; [|vm_compute in H; discriminate].
  exists p'. split; [reflexivity|]. split; [reflexivity|].
  exact (unattended_run_never_prompts 2 1 default_args
           (wallet_listing [three_small]) p' _ eq_refl H).
Defined.

Lemma explicit_address_only_payee_witness :
  exists p',
    address (with_address "X" default_args) = Some "X"
    /\ final (main_loop 2 1 (with_address "X" default_args)
                (initial_state (wallet_listing [three_small]))) = Some p'
    /\ In (PrintPayee "X" 14) (stdout p')
    /\ "X" = "X".
Proof.
  destruct (final (main_loop 2 1 (with_address "X" default_args)
                     (initial_state (wallet_listing [three_small]))))
    as [p'|] eqn:H; [|vm_compute in H; discriminate].
  assert (Hin : In (PrintPayee "X" 14) (stdout p')).
  { pose proof H as H'. vm_compute in H'. injection H' as <-.
    simpl. auto 10. }
  exists p'. split; [reflexivity|]. split; [reflexivity|].
  split; [exact Hin|].
  exact (explicit_address_only_payee 2 1 (with_address "X" default_args) "X"
           (wallet_listing [three_small]) p' "X" 14 eq_refl H Hin).
Defined.

Lemma reuse_mode_never_pays_witness :
  exists p',
    reuse (with_reuse default_args) = true
    /\ address (with_reuse default_args) = None
    /\ final (main_loop 2 1 (with_reuse default_args)
                (initial_state (wallet_listing [three_small]))) = Some p'
    /\ addr p' = None.
Proof.
  destruct (final (main_loop 2 1 (with_reuse default_args)
                     (initial_state (wallet_listing [three_small]))))
    as [p'|] eqn:H; [|vm_compute in H; discriminate].
  exists p'. repeat (split; [reflexivity|]).
  exact (proj1 (reuse_mode_never_pays 2 1 (with_reuse default_args)
                  (wallet_listing [three_small]) p' eq_refl eq_refl H)).
Defined.

Lemma run_log_announced_witness :
  exists p',
    final (main_loop 2 1 default_args
             (initial_state (wallet_listing [three_small]))) = Some p'
    /\ (List.length (transactions p') < 2)%nat.
Proof.
  destruct (final (main_loop 2 1 default_args
                     (initial_state (wallet_listing [three_small]))))
    as [p'|] eqn:H; [|vm_compute in H; discriminate].
  exists p'. split; [reflexivity|].
  exact (proj2 (run_log_announced 2 1 default_args
                  (wallet_listing [three_small]) p' H)).
Defined.

Lemma loop_begins_after_checks_witness :
  exists lines o,
    program 2 1 "http://u:p@127.0.0.1:8766" (with_address "A1" default_args)
      (wallet_listing [three_small]) = (lines, Some o)
    /\ o = main_loop 2 1 (with_address "A1" default_args)
             (initial_state (wallet_listing [three_small])).
Proof.
  destruct (program 2 1 "http://u:p@127.0.0.1:8766"
              (with_address "A1" default_args) (wallet_listing [three_small]))
    as [lines [o|]] eqn:H; [|vm_compute in H; discriminate].
  exists lines, o. split; [reflexivity|].
  destruct (loop_begins_after_checks 2 1 "http://u:p@127.0.0.1:8766"
              (with_address "A1" default_args) (wallet_listing [three_small])
              lines o H)
    as [w1 [w2 [w3 [un [H1 [H2 [H3 [_ Ho]]]]]]]].
  destruct H2 as [info [H2 _]].
  injection H1 as <-. injection H2 as _ <-. injection H3 as _ <-.
  exact Ho.
Defined.

Lemma program_pays_only_validated_witness :
  exists lines o p',
    address (with_address "A1" default_args) = Some "A1"
    /\ program 2 1 "http://u:p@127.0.0.1:8766"
         (with_address "A1" default_args) (wallet_listing [three_small])
       = (lines, Some o)
    /\ final o = Some p'
    /\ In (PrintPayee "A1" 14) (stdout p')
    /\ "A1" = "A1".
Proof.
  destruct (program 2 1 "http://u:p@127.0.0.1:8766"
              (with_address "A1" default_args) (wallet_listing [three_small]))
    as [lines [o|]] eqn:H; [|vm_compute in H; discriminate].
  destruct (final o) as [p'|] eqn:Hf;
    [|exfalso; vm_compute in H; injection H as _ <-;
      vm_compute in Hf; discriminate].
  assert (Hin : In (PrintPayee "A1" 14) (stdout p')).
  { pose proof H as H'. vm_compute in H'. injection H' as _ <-.
    vm_compute in Hf. injection Hf as <-. simpl. auto 10. }
  exists lines, o, p'. split; [reflexivity|]. split; [reflexivity|].
  split; [exact Hf|]. split; [exact Hin|].
  exact (proj1 (program_pays_only_validated 2 1 "http://u:p@127.0.0.1:8766"
                  (with_address "A1" default_args) "A1"
                  (wallet_listing [three_small]) lines o p' "A1" 14
                  eq_refl H Hf Hin)).
Defined.

(** ** More on a pass *)

Lemma in_firstn {A} (x : A) n l : In x (firstn n l) -> In x l.
Proof.
  intro H. rewrite <- (firstn_skipn n l). apply in_or_app. now left.
Qed.

(** X22. Every selected input is an output of the snapshot that pays the
    most-overused script or a script whose total amount is below 0.0001. *)
Theorem selected_inputs_pay_working_set (args : Args) (coins : list Coin)
  (scripts : dict Group) (most : string) (txin : TxIn) :
  In txin (snd (plan_inputs args coins scripts most)) ->
  exists c,
    In c coins /\ txin = txin_of c
    /\ (scriptPubKey c = most
        \/ exists g, dict_get (scriptPubKey c) scripts = Some g
                     /\ g1 g < 1 # 10000).
Proof.
  destruct (plan_inputs_selected args coins scripts most) as [Hin _].
  rewrite Hin. unfold selected_coins. intro H.
  apply in_map_iff in H. destruct H as [c [<- Hc]].
  apply in_firstn, filter_In in Hc. destruct Hc as [Hc Huse].
  exists c. split; [exact Hc|]. split; [reflexivity|].
  unfold in_use in Huse. apply set_mem_correct1 in Huse.
  unfold working_set in Huse. apply fold_use_script_members in Huse.
  destruct Huse as [[<-|[]]|[_ H]]; auto.
Qed.

Section Raising.
Context {W : Type} {rpc : WalletRPC W}.




(** X24. In a run of the splitting loop that has ended with two or more
    chunks, the last chunk is 10 or more: a remainder below 10 is never
    left for an output of its own. *)
Theorem trailing_chunk_at_least_10 (fuel : nat) (args : Args) (na : Decimal)
  (p : Proc W) (r : Split) (p' : Proc W) (init : list Decimal)
  (last_chunk : Decimal) :
  split_loop fuel args na empty_split p = Done r p' ->
  chunk_sequence r = init ++ [last_chunk] -> init <> [] ->
  10 <= last_chunk.
Proof.
  intros Hrun Hseq Hinit.
  set (P := fun (n : Decimal) (s : Split) (_ : Proc W) =>
       (0 < n /\ (chunk_sequence s <> [] -> 10 <= n))
       \/ (n <= 0
           /\ forall i l, chunk_sequence s = i ++ [l] -> i <> [] -> 10 <= l)).
  assert (step : forall n s q b q',
             0 < n -> P n s q -> next_addr args q = Done b q' ->
             0 < chunk args n -> P (n - chunk args n) (paid args n b s) q').
  { intros n s q b q' Hpos [[_ Hrem]|[Hn _]] _ _; [|lra].
    unfold P, paid, chunk_sequence in *. simpl. rewrite map_app. simpl.
    destruct (chunk_cases args n) as [[Ek _]|[Ek [_ Hrest]]]; rewrite Ek.
    - right. split; [lra|]. intros i l Heq Hi.
      apply app_inj_tail in Heq. destruct Heq as [<- <-]. auto.
    - left. split; [lra|]. intros _. lra. }
  destruct (split_loop_invariant args P step _ _ _ _ _ _ Hrun)
    as [n [Hn [[Hpos _]|[_ H]]]].
  - destruct (Qlt_le_dec 0 na) as [Hpos|Hneg].
    + left. split; [exact Hpos|]. intro H. now elim H.
    + right. split; [exact Hneg|]. intros i l Heq.
      now destruct i.
  - lra.
  - eapply H; eauto.
Qed.
End Raising.

Lemma selected_inputs_pay_working_set_witness :
  In (txin_of (coin_of "t1" "S" 5))
    (snd (plan_inputs default_args three_small
            (group_coins default_args three_small) "S"))
  /\ exists c,
       In c three_small /\ txin_of (coin_of "t1" "S" 5) = txin_of c
       /\ (scriptPubKey c = "S"
           \/ exists g,
                dict_get (scriptPubKey c)
                  (group_coins default_args three_small) = Some g
                /\ g1 g < 1 # 10000).
Proof.
  assert (Hin : In (txin_of (coin_of "t1" "S" 5))
                  (snd (plan_inputs default_args three_small
                          (group_coins default_args three_small) "S")))
    by (left; reflexivity).
  split; [exact Hin|].
  exact (selected_inputs_pay_working_set default_args three_small
           (group_coins default_args three_small) "S" _ Hin).
Defined.


Lemma trailing_chunk_at_least_10_witness :
  exists r p',
    split_loop 2 args_10 25 empty_split (initial_state (wallet_listing []))
    = Done r p'
    /\ chunk_sequence r = [10] ++ [15]
    /\ [10] <> []
    /\ 10 <= 15.
Proof.
  destruct (split_loop 2 args_10 25 empty_split
              (initial_state (wallet_listing [])))
    as [r p'|e p'|p'|] eqn:Hrun; [|vm_compute in Hrun; discriminate ..].
  assert (Hseq : chunk_sequence r = [10] ++ [15]).
  { pose proof Hrun as H'. vm_compute in H'. injection H' as <- _.
    reflexivity. }
  exists r, p'. split; [reflexivity|]. split; [exact Hseq|].
  split; [discriminate|].
  exact (trailing_chunk_at_least_10 2 args_10 25
           (initial_state (wallet_listing [])) r p' [10] 15 Hrun Hseq
           ltac:(discriminate)).
Defined.

(** ** A failing [listunspent] in the middle of a run *)

Section FetchFailure.
Context {W : Type} {rpc : WalletRPC W}.



End FetchFailure.

